(** * Joint distributions (Think Bayes, chapter 9): a shallow embedding

    The notebook [code/chap09.ipynb] builds a joint distribution of two
    independent [Pmf]s as an outer product ([make_joint]), multiplies it
    by a likelihood table, normalizes the product in place ([normalize])
    and reads marginal ([marginal]) and conditional distributions off the
    posterior table.

    Numbers.  The cells of every table are Python/NumPy floats.  They are
    modelled by the type [float] below: a finite value is an exact
    rational (rounding is abstracted away, so "equal within numeric
    tolerance" becomes equality), and the three special values that NumPy
    produces instead of raising (division by zero, missing labels) are
    kept: [PInf], [NInf] and [NaN].  The sign of zero is not tracked.

    Tables.  A pandas [DataFrame] is a record of row labels, column labels
    and a row-major list of rows; a [Pmf] (a pandas [Series]) is a list of
    (quantity, probability) pairs.  The pandas, NumPy and empiricaldist
    primitives the notebook calls ([np.meshgrid], [np.where], [np.arange],
    the [DataFrame] constructor, label-aligned [*], [/=], [sum],
    [Pmf.normalize]) are given by the definitions of the first sections,
    for axes whose labels are distinct.

    Objects.  [normalize] changes the table it is passed.  Its embedding
    passes the table's contents in and out explicitly; the section on
    objects and aliasing adds the store of table objects, where the same
    statements act on references. *)

From Stdlib Require Import QArith Qcanon Qround ZArith List Lia.
From stdpp Require Import base list numbers sorting.

Local Open Scope Qc_scope.

(** ** Floats *)

Inductive float : Type :=
  | Fin (q : Qc)
  | PInf
  | NInf
  | NaN.

Definition is_finite (x : float) : bool :=
  match x with Fin _ => true | _ => false end.

Definition isnan (x : float) : bool :=
  match x with NaN => true | _ => false end.

(** The infinity whose sign is negative iff [neg]. *)
Definition inf (neg : bool) : float := if neg then NInf else PInf.

Definition Qc_negb (q : Qc) : bool :=
  match q ?= 0 with Lt => true | _ => false end.

Definition Qc_zerob (q : Qc) : bool :=
  match q ?= 0 with Eq => true | _ => false end.

Definition fadd (x y : float) : float :=
  match x, y with
  | NaN, _ | _, NaN => NaN
  | Fin a, Fin b => Fin (a + b)
  | PInf, NInf | NInf, PInf => NaN
  | PInf, _ | _, PInf => PInf
  | NInf, _ | _, NInf => NInf
  end.

Definition fmul (x y : float) : float :=
  match x, y with
  | NaN, _ | _, NaN => NaN
  | Fin a, Fin b => Fin (a * b)
  | Fin a, PInf | PInf, Fin a => if Qc_zerob a then NaN else inf (Qc_negb a)
  | Fin a, NInf | NInf, Fin a => if Qc_zerob a then NaN else inf (negb (Qc_negb a))
  | PInf, PInf | NInf, NInf => PInf
  | PInf, NInf | NInf, PInf => NInf
  end.

(** True division as NumPy performs it: a zero divisor does not raise. *)
Definition fdiv (x y : float) : float :=
  match x, y with
  | NaN, _ | _, NaN => NaN
  | Fin a, Fin b =>
      if Qc_zerob b then (if Qc_zerob a then NaN else inf (Qc_negb a))
      else Fin (a / b)
  | Fin _, (PInf | NInf) => Fin 0
  | PInf, Fin b => inf (Qc_negb b)
  | NInf, Fin b => inf (negb (Qc_negb b))
  | (PInf | NInf), (PInf | NInf) => NaN
  end.

(** [a > b] on labels, as NumPy's elementwise comparison. *)
Definition Qc_gtb (a b : Qc) : bool :=
  match a ?= b with Gt => true | _ => false end.

(** ** One-dimensional sums *)

(** [ndarray.sum()]: every element counts, so one [NaN] makes the sum
    [NaN]. *)
Definition fsum (l : list float) : float := foldr fadd (Fin 0) l.

(** pandas [sum] (default [skipna=True]): [NaN] entries are dropped. *)
Definition nansum (l : list float) : float :=
  fsum (filter (fun x => isnan x = false) l).

(** ** Python outcomes *)

(** The exceptions the modelled statements can raise: pandas raises
    [KeyError] when a label is looked up that the axis does not carry, and
    [ValueError] when the [DataFrame] constructor is given data whose
    shape disagrees with the labels. *)
Inductive exn : Type := KeyError | ValueError.

Inductive result (A : Type) : Type :=
  | Ok (a : A)
  | Raise (e : exn).
Arguments Ok {A} a.
Arguments Raise {A} e.

Definition rbind {A B} (m : result A) (k : A -> result B) : result B :=
  match m with Ok a => k a | Raise e => Raise e end.

Notation "x <<- m ;; k" := (rbind m (fun x => k))
  (at level 100, m at next level, right associativity).

(** ** Arrays, series and frames *)

Abbreviation label := Qc (only parsing).

(** A two-dimensional [ndarray], row-major. *)
Abbreviation ndarray := (list (list float)) (only parsing).

(** A [Pmf] is a pandas [Series]: quantities (the index) paired with
    probabilities. *)
Abbreviation Pmf := (list (label * float)) (only parsing).

Definition qs (pmf : Pmf) : list label := fmap fst pmf.
Definition ps (pmf : Pmf) : list float := fmap snd pmf.

Record DataFrame : Type := {
  index : list label;      (* row labels *)
  columns : list label;    (* column names *)
  to_numpy : ndarray
}.

(** The shape pandas checks when a frame is built from an array. *)
Definition shape_ok (data : ndarray) (nrows ncols : nat) : bool :=
  Nat.eqb (length data) nrows
  && forallb (fun row => Nat.eqb (length row) ncols) data.

Definition wf (df : DataFrame) : Prop :=
  shape_ok (to_numpy df) (length (index df)) (length (columns df)) = true.

(** [pd.DataFrame(data, index=..., columns=...)] *)
Definition pd_DataFrame (data : ndarray) (idx cols : list label)
  : result DataFrame :=
  if shape_ok data (length idx) (length cols)
  then Ok {| index := idx; columns := cols; to_numpy := data |}
  else Raise ValueError.

(** [np.meshgrid(x, y)]: [X] repeats [x] in every row, [Y] repeats [y] in
    every column; both have [len(y)] rows and [len(x)] columns. *)
Definition meshgrid {A} (x y : list A) : list (list A) * list (list A) :=
  (fmap (fun _ => x) y, fmap (fun yi => fmap (fun _ => yi) x) y).

(** An elementwise binary operation on two arrays of the same shape. *)
Definition elementwise {A B C} (f : A -> B -> C)
  (X : list (list A)) (Y : list (list B)) : list (list C) :=
  zip_with (zip_with f) X Y.

(** [np.where(cond, 1, 0)] *)
Definition np_where (cond : list (list bool)) : ndarray :=
  fmap (fun row : list bool =>
          fmap (fun b : bool => if b then Fin 1 else Fin 0) row) cond.

(** [a.sum()] over a whole array. *)
Definition np_sum (a : ndarray) : float := fsum (concat a).

(** ** [make_joint] *)

Definition make_joint (pmf1 pmf2 : Pmf) : result DataFrame :=
  let '(X, Y) := meshgrid (ps pmf1) (ps pmf2) in
  pd_DataFrame (elementwise fmul X Y) (qs pmf2) (qs pmf1).

(** ** The likelihood table *)

(** The notebook's cells
    [x = joint.columns; y = joint.index; X, Y = np.meshgrid(x, y);
     A_taller = (X > Y); a = np.where(A_taller, 1, 0);
     likelihood = pd.DataFrame(a, index=x, columns=y)]. *)
Definition likelihood (joint : DataFrame) : result DataFrame :=
  let x := columns joint in
  let y := index joint in
  let '(X, Y) := meshgrid x y in
  let A_taller := elementwise Qc_gtb X Y in
  let a := np_where A_taller in
  pd_DataFrame a x y.

(** The same cells with [np.where(X > Y, 1, 0)] replaced by an arbitrary
    evidence function [f] evaluated on the mesh grid. *)
Definition likelihood_of (f : label -> label -> float) (x y : list label)
  : result DataFrame :=
  let '(X, Y) := meshgrid x y in
  let a := elementwise f X Y in
  pd_DataFrame a x y.

(** The evidence function of the height example: 1 where [x > y]. *)
Definition taller (x y : label) : float :=
  if Qc_gtb x y then Fin 1 else Fin 0.

(** ** Label alignment and [joint * likelihood] *)

(** Position of a label on an axis ([Index.get_loc] for an axis without
    repeated labels). *)
Definition get_loc (ax : list label) (k : label) : option nat :=
  fst <$> list_find (fun x => x = k) ax.

(** [Index.union]: the labels of both axes, each once, in ascending
    order. *)
Definition index_union (a b : list label) : list label :=
  merge_sort Qcle (remove_dups (a ++ b)).

(** An indexer tells, for each label of a joined axis, where the label
    sits on an operand's axis ([None]: the operand lacks the label). *)
Abbreviation indexer := (list (option nat)) (only parsing).

Definition identity_indexer (ax : list label) : indexer :=
  fmap Some (seq 0 (length ax)).

(** [Index.join(other, how="outer")] as [DataFrame.align] uses it: the
    joined axis and the indexer of each operand.  Equal axes are kept as
    they are; an empty axis yields the other one; otherwise the axes are
    united.  Axes are assumed to carry distinct labels, as the quantities
    of a [Pmf] do. *)
Definition index_join (a b : list label) : list label * indexer * indexer :=
  if decide (a = b) then (a, identity_indexer a, identity_indexer b)
  else
    let j := match a, b with
             | _, [] => a
             | [], _ => b
             | _, _ => index_union a b
             end in
    (j, fmap (get_loc a) j, fmap (get_loc b) j).

(** Reindexing: pick the rows (cells of a row) an indexer names, and fill
    with [NaN] where it names none. *)
Definition take_cells (ix : indexer) (row : list float) : list float :=
  fmap (fun oj => match oj with
                 | Some j => default NaN (row !! j)
                 | None => NaN
                 end) ix.

Definition take_rows (rix cix : indexer) (a : ndarray) : ndarray :=
  fmap (fun oi => match oi with
                 | Some i => take_cells cix (default [] (a !! i))
                 | None => fmap (fun _ => NaN) cix
                 end) rix.

(** [left * right] on frames: both operands are aligned on the outer join
    of their row labels and of their column names, then multiplied cell by
    cell.  No exception is raised when the axes differ. *)
Definition df_mul (left right : DataFrame) : DataFrame :=
  let '(idx, lrix, rrix) := index_join (index left) (index right) in
  let '(cols, lcix, rcix) := index_join (columns left) (columns right) in
  {| index := idx;
     columns := cols;
     to_numpy := elementwise fmul (take_rows lrix lcix (to_numpy left))
                                  (take_rows rrix rcix (to_numpy right)) |}.

(** [joint /= prob_data]: every cell divided by a scalar. *)
Definition df_div (joint : DataFrame) (prob_data : float) : DataFrame :=
  {| index := index joint;
     columns := columns joint;
     to_numpy := fmap (fun row : list float => fmap (fun x => fdiv x prob_data) row)
                     (to_numpy joint) |}.

(** ** [normalize] *)

(** [normalize(joint)] divides the table it is given in place and returns
    the total.  The table object's contents are passed explicitly: the
    first component is the contents of [joint] after the call, the second
    the returned [prob_data]. *)
Definition normalize (joint : DataFrame) : DataFrame * float :=
  let prob_data := np_sum (to_numpy joint) in
  (df_div joint prob_data, prob_data).

(** The update of the notebook:
    [posterior = joint * likelihood; normalize(posterior)]. *)
Definition update (joint likelihood : DataFrame) : DataFrame * float :=
  let posterior := df_mul joint likelihood in
  normalize posterior.

(** ** [marginal] *)

Inductive axis : Type := axis0 | axis1.

Definition column (a : ndarray) (j : nat) : list float :=
  fmap (fun row => default NaN (row !! j)) a.

(** [joint.sum(axis=axis)]: [axis=0] adds up the rows, giving one total
    per column name; [axis=1] adds up the columns, giving one total per
    row label. *)
Definition df_sum (joint : DataFrame) (ax : axis) : Pmf :=
  match ax with
  | axis0 =>
      zip (columns joint)
          (fmap (fun j => nansum (column (to_numpy joint) j))
               (seq 0 (length (columns joint))))
  | axis1 => zip (index joint) (fmap nansum (to_numpy joint))
  end.

Definition marginal (joint : DataFrame) (ax : axis) : Pmf :=
  df_sum joint ax.

(** ** Conditional distributions *)

(** [posterior[key]]: the column named [key], indexed by the row labels. *)
Definition getitem (df : DataFrame) (key : label) : result Pmf :=
  match get_loc (columns df) key with
  | Some j => Ok (zip (index df) (column (to_numpy df) j))
  | None => Raise KeyError
  end.

(** [Pmf.normalize] (empiricaldist): [total = self.sum(); self /= total;
    return total].  As for [normalize], the contents after the call come
    first. *)
Definition Pmf_normalize (pmf : Pmf) : Pmf * float :=
  let total := nansum (ps pmf) in
  (fmap (fun '(q, p) => (q, fdiv p total)) pmf, total).

(** [column = posterior[key]; cond = Pmf(column); cond.normalize()] *)
Definition conditional (posterior : DataFrame) (key : label) : result Pmf :=
  column_key <<- getitem posterior key ;;
  Ok (fst (Pmf_normalize column_key)).

(** ** Objects and aliasing *)

(** Python names hold references to table objects.  The store lists the
    live [DataFrame] objects; a reference is a position in it.  A
    statement that builds a table appends a new object; [normalize]
    overwrites the object it is passed. *)
Abbreviation store := (list DataFrame) (only parsing).
Abbreviation ref := nat (only parsing).

Global Instance DataFrame_inhabited : Inhabited DataFrame :=
  populate {| index := []; columns := []; to_numpy := [] |}.

Definition new (df : DataFrame) (h : store) : ref * store :=
  (length h, h ++ [df]).

(** [joint = make_joint(pmf1, pmf2)] *)
Definition make_joint_obj (pmf1 pmf2 : Pmf) (h : store)
  : result (ref * store) :=
  joint <<- make_joint pmf1 pmf2 ;;
  Ok (new joint h).

(** [posterior = joint * likelihood] *)
Definition mul_obj (joint likelihood : ref) (h : store) : ref * store :=
  new (df_mul (h !!! joint) (h !!! likelihood)) h.

(** [normalize(joint)]: [joint /= prob_data] writes through the reference. *)
Definition normalize_obj (joint : ref) (h : store) : float * store :=
  let '(contents, prob_data) := normalize (h !!! joint) in
  (prob_data, <[joint := contents]> h).

(** [posterior = joint * likelihood; normalize(posterior)] *)
Definition update_obj (joint likelihood : ref) (h : store)
  : (ref * float) * store :=
  let '(posterior, h1) := mul_obj joint likelihood h in
  let '(prob_data, h2) := normalize_obj posterior h1 in
  ((posterior, prob_data), h2).

(** ** The height example *)

(** [np.arange(start, stop, step)] *)
Definition arange (start stop step : Qc) : list Qc :=
  let n := Z.to_nat (Qceiling ((stop - start) / step)) in
  fmap (fun k : nat => start + Qc_of_Z (Z.of_nat k) * step) (seq 0 n).

Definition mean : Qc := Qc_of_Z 178.

(** [qs = np.arange(mean-24, mean+24, 0.5)] *)
Definition height_qs : list Qc :=
  arange (mean - Qc_of_Z 24) (mean + Qc_of_Z 24) (Q2Qc (1 # 2)).

(** [Pmf(ps, qs)]: a series of [ps] indexed by [qs]. *)
Definition Pmf_new (ps0 : list float) (qs0 : list label) : result Pmf :=
  if Nat.eqb (length ps0) (length qs0) then Ok (zip qs0 ps0)
  else Raise ValueError.

(** The notebook from the prior to the joint posterior,
    [prior = Pmf(ps, qs); prior.normalize();
     joint = make_joint(prior, prior); likelihood = ...;
     posterior = joint * likelihood; normalize(posterior)],
    with the densities [ps = norm(mean, std).pdf(qs)] left as a
    parameter. *)
Definition height_posterior (ps0 : list float) : result DataFrame :=
  prior0 <<- Pmf_new ps0 height_qs ;;
  let prior := fst (Pmf_normalize prior0) in
  joint <<- make_joint prior prior ;;
  lik <<- likelihood joint ;;
  Ok (fst (update joint lik)).

(** ** Predicates on tables *)

(** The rational a finite float stands for (0 for the special values). *)
Definition to_Qc (x : float) : Qc :=
  match x with Fin q => q | _ => 0 end.

Definition all_finite (l : list float) : bool := forallb is_finite l.

Definition finite_array (a : ndarray) : bool := forallb all_finite a.

Definition finite_pmf (pmf : Pmf) : bool := all_finite (ps pmf).

Definition qsum (l : list Qc) : Qc := foldr Qcplus 0 l.

(** A weight that is finite and positive. *)
Definition positive_weight (x : float) : bool :=
  match x with Fin q => Qc_gtb q 0 | _ => false end.

(** [Pmf.sum()] *)
Definition Pmf_sum (pmf : Pmf) : float := nansum (ps pmf).

(** The cell at position [(i, k)] of an array. *)
Definition cell (a : ndarray) (i k : nat) : option float :=
  a !! i ≫= (fun row => row !! k).

(** [df.loc[r, c]]: the cell in the row labelled [r] and the column
    named [c], when the frame has both. *)
Definition loc (df : DataFrame) (r c : label) : option float :=
  i ← get_loc (index df) r;
  k ← get_loc (columns df) c;
  cell (to_numpy df) i k.

(** Finite and positive, finite and not negative. *)
Definition fpos (x : float) : Prop :=
  match x with Fin q => 0 < q | _ => False end.

Definition fnonneg (x : float) : Prop :=
  match x with Fin q => 0 <= q | _ => False end.

(** The cell of the unnormalized posterior of the height example in
    column [x] and row [y], each given with its prior weight:
    prior(x) * prior(y) * [x > y]. *)
Definition taller_cell (x y : label * float) : float :=
  fmul (fmul (snd x) (snd y)) (taller (fst x) (fst y)).

(** ** Small tables used as concrete inputs *)

Definition frac (n : Z) (d : positive) : Qc := Q2Qc (n # d).

(** Support {1, 2, 3} with weights {0.2, 0.3, 0.5}. *)
Definition pmf123 : Pmf :=
  [(Qc_of_Z 1, Fin (frac 1 5)); (Qc_of_Z 2, Fin (frac 3 10));
   (Qc_of_Z 3, Fin (frac 1 2))].

Definition frame (idx cols : list Z) (cells : list (list float)) : DataFrame :=
  {| index := fmap Qc_of_Z idx; columns := fmap Qc_of_Z cols;
     to_numpy := cells |}.

Definition fz (n : Z) : float := Fin (Qc_of_Z n).

(** A normalized 2 x 2 joint table, a 0/1 likelihood and an all-ones
    likelihood on the same axes. *)
Definition joint22 : DataFrame :=
  frame [1; 2]%Z [1; 2]%Z
        [[Fin (frac 1 8); Fin (frac 1 4)]; [Fin (frac 1 8); Fin (frac 1 2)]].

Definition like22 : DataFrame :=
  frame [1; 2]%Z [1; 2]%Z [[fz 0; fz 1]; [fz 0; fz 0]].

Definition ones22 : DataFrame :=
  frame [1; 2]%Z [1; 2]%Z [[fz 1; fz 1]; [fz 1; fz 1]].

(** A second normalized distribution, on another support. *)
Definition pmf_ab : Pmf :=
  [(Qc_of_Z 10, Fin (frac 1 4)); (Qc_of_Z 20, Fin (frac 3 4))].

(** The sequences of the notebook's first cells, [x = [1,3,5]] and
    [y = [2,4]], and two sequences of equal length. *)
Definition x135 : list label := fmap Qc_of_Z [1; 3; 5]%Z.
Definition y24 : list label := fmap Qc_of_Z [2; 4]%Z.
Definition x12 : list label := fmap Qc_of_Z [1; 2]%Z.
Definition y34 : list label := fmap Qc_of_Z [3; 4]%Z.

(** A distribution giving every quantity of [xs] the weight 1. *)
Definition ones_on (xs : list label) : Pmf := fmap (fun x => (x, Fin 1)) xs.

(** An evidence function no pair of a bounded support satisfies:
    [x > y + 1000]. *)
Definition far_taller (x y : label) : float :=
  if Qc_gtb x (y + Qc_of_Z 1000) then Fin 1 else Fin 0.

(** A grid with another step: 1, 1.5, 2. *)
Definition half_steps : list label :=
  arange (Qc_of_Z 1) (frac 5 2) (frac 1 2).

(** A table of the given labels whose cells are all [c]. *)
Definition constant_frame (idx cols : list label) (c : float) : DataFrame :=
  {| index := idx; columns := cols;
     to_numpy := replicate (length idx) (replicate (length cols) c) |}.

(** The likelihood [like22] with its rows listed in the other order. *)
Definition like22_reordered : DataFrame :=
  frame [2; 1]%Z [1; 2]%Z [[fz 0; fz 0]; [fz 0; fz 1]].

(** The height example with the same density at every height. *)
Definition flat_ps : list float := replicate (length height_qs) (Fin 1).

(** ** Outer operations *)

(** The notebook's first cells,
    [X, Y = np.meshgrid(x, y); df = pd.DataFrame(X * Y, columns=x, index=y)],
    for any elementwise operation in place of [*] (the notebook also
    shows [X + Y] and [X > Y]). *)
Definition outer_frame (op : label -> label -> float) (x y : list label)
  : result DataFrame :=
  let '(X, Y) := meshgrid x y in
  pd_DataFrame (elementwise op X Y) y x.

(** A finite number between 0 and 1. *)
Definition is_probability (c : float) : Prop :=
  match c with Fin q => 0 <= q /\ q <= 1 | _ => False end.

(** [Pmf.mean] (empiricaldist): [np.sum(self.ps * self.qs)]. *)
Definition Pmf_mean (pmf : Pmf) : float :=
  fsum (zip_with fmul (ps pmf) (fmap Fin (qs pmf))).

(** ** Deciding equality of concrete tables *)

Global Instance float_eq_dec : EqDecision float.
Proof. solve_decision. Defined.

Global Instance exn_eq_dec : EqDecision exn.
Proof. solve_decision. Defined.

Global Instance result_eq_dec {A} `{EqDecision A} : EqDecision (result A).
Proof. solve_decision. Defined.

Global Instance DataFrame_eq_dec : EqDecision DataFrame.
Proof. solve_decision. Defined.

Global Instance axis_eq_dec : EqDecision axis.
Proof. solve_decision. Defined.

(** * Properties *)

(** ** Arithmetic on floats *)

Lemma Qc_zerob_true (q : Qc) : Qc_zerob q = true <-> q = 0.
Proof.
  unfold Qc_zerob. rewrite Qceq_alt.
  destruct (q ?= 0); split; congruence.
Qed.

Lemma Qc_zerob_false (q : Qc) : Qc_zerob q = false <-> q <> 0.
Proof.
  rewrite <- Qc_zerob_true. destruct (Qc_zerob q); split; congruence.
Qed.

Lemma fadd_NaN_r x : fadd x NaN = NaN.
Proof. by destruct x. Qed.

Lemma fmul_NaN_r x : fmul x NaN = NaN.
Proof. by destruct x. Qed.

Lemma fdiv_NaN_r x : fdiv x NaN = NaN.
Proof. by destruct x. Qed.

Lemma fmul_1_r x : fmul x (Fin 1) = x.
Proof. destruct x; simpl; try done. by rewrite Qcmult_1_r. Qed.

Lemma fdiv_1_r x : fdiv x (Fin 1) = x.
Proof.
  destruct x; simpl; try done.
  replace (Qc_zerob 1) with false by done.
  f_equal. apply Qcdiv_right_id.
Qed.

Lemma fdiv_Fin (a b : Qc) : b <> 0 -> fdiv (Fin a) (Fin b) = Fin (a / b).
Proof. intros Hb. simpl. apply Qc_zerob_false in Hb. by rewrite Hb. Qed.

Lemma fdiv_zero_not_finite x : is_finite (fdiv x (Fin 0)) = false.
Proof.
  destruct x as [a| | |]; simpl; try done.
  replace (Qc_zerob 0) with true by done.
  by destruct (Qc_zerob a), (Qc_negb a).
Qed.

Lemma is_finite_Fin x : is_finite x = true -> x = Fin (to_Qc x).
Proof. by destruct x. Qed.

Lemma all_finite_cons x l :
  all_finite (x :: l) = true <-> is_finite x = true /\ all_finite l = true.
Proof. unfold all_finite. simpl. by rewrite andb_true_iff. Qed.

Lemma all_finite_app l k :
  all_finite (l ++ k) = all_finite l && all_finite k.
Proof. unfold all_finite. apply forallb_app. Qed.

Lemma all_finite_Fin l : all_finite l = true -> l = fmap Fin (fmap to_Qc l).
Proof.
  induction l as [|x l IH]; [done|].
  rewrite all_finite_cons. intros [Hx Hl]. rewrite !fmap_cons.
  by rewrite <- (is_finite_Fin x Hx), <- IH.
Qed.

Lemma fsum_Fin (l : list Qc) : fsum (fmap Fin l) = Fin (qsum l).
Proof.
  induction l as [|q l IH]; [done|].
  rewrite fmap_cons. unfold fsum in *. cbn [foldr]. by rewrite IH.
Qed.

Lemma fsum_finite l : all_finite l = true -> fsum l = Fin (qsum (fmap to_Qc l)).
Proof. intros H. rewrite (all_finite_Fin l H) at 1. apply fsum_Fin. Qed.

Lemma nansum_finite l : all_finite l = true -> nansum l = fsum l.
Proof.
  intros H. unfold nansum. f_equal.
  induction l as [|x l IH]; [done|].
  apply all_finite_cons in H as [Hx Hl].
  rewrite filter_cons_True by (by destruct x).
  f_equal. by apply IH.
Qed.

Lemma fadd_assoc x y z : fadd x (fadd y z) = fadd (fadd x y) z.
Proof. destruct x, y, z; simpl; try done. by rewrite Qcplus_assoc. Qed.

Lemma fadd_comm x y : fadd x y = fadd y x.
Proof. destruct x, y; simpl; try done. by rewrite Qcplus_comm. Qed.

Lemma fadd_0_l x : fadd (Fin 0) x = x.
Proof. destruct x; simpl; try done. by rewrite Qcplus_0_l. Qed.

Lemma fsum_cons x l : fsum (x :: l) = fadd x (fsum l).
Proof. done. Qed.

Lemma fsum_app l k : fsum (l ++ k) = fadd (fsum l) (fsum k).
Proof.
  induction l as [|x l IH].
  - by rewrite fadd_0_l.
  - rewrite <- app_comm_cons, !fsum_cons, IH. apply fadd_assoc.
Qed.

Lemma fsum_concat (a : ndarray) : fsum (concat a) = fsum (fmap fsum a).
Proof.
  induction a as [|row a IH]; [done|].
  rewrite fmap_cons, fsum_cons. simpl. by rewrite fsum_app, IH.
Qed.

(** Sums of pointwise sums split. *)
Lemma fsum_fadd {A} (f g : A -> float) (l : list A) :
  fsum (fmap (fun j => fadd (f j) (g j)) l)
  = fadd (fsum (fmap f l)) (fsum (fmap g l)).
Proof.
  induction l as [|j l IH]; [done|].
  rewrite !fmap_cons, !fsum_cons, IH.
  rewrite <- !fadd_assoc. f_equal.
  rewrite !fadd_assoc. f_equal. apply fadd_comm.
Qed.

Lemma fsum_NaN l : NaN ∈ l -> fsum l = NaN.
Proof.
  induction l as [|y l IH]; [by intros ?%elem_of_nil|].
  intros [<-|H]%elem_of_cons; unfold fsum in *; simpl; [done|].
  rewrite IH by done. apply fadd_NaN_r.
Qed.

(** ** Shapes *)

Lemma shape_ok_spec (a : ndarray) (n m : nat) :
  shape_ok a n m = true <-> length a = n /\ Forall (fun row => length row = m) a.
Proof.
  unfold shape_ok. rewrite andb_true_iff, Nat.eqb_eq, forallb_forall.
  rewrite Forall_forall. setoid_rewrite Nat.eqb_eq.
  by setoid_rewrite list_elem_of_In.
Qed.

Lemma meshgrid_shape {A} (f : A -> A -> float) (x y : list A) :
  shape_ok (elementwise f (fst (meshgrid x y)) (snd (meshgrid x y)))
           (length y) (length x) = true.
Proof.
  apply shape_ok_spec. unfold elementwise, meshgrid. cbn [fst snd]. split.
  - rewrite length_zip_with, !length_fmap. lia.
  - apply Forall_forall. intros row Hrow.
    apply elem_of_lookup_zip_with in Hrow as (i & r1 & r2 & -> & H1 & H2).
    apply list_lookup_fmap_Some in H1 as (? & -> & ?).
    apply list_lookup_fmap_Some in H2 as (? & -> & ?).
    rewrite length_zip_with, length_fmap. lia.
Qed.

(** ** Aligned operands: the product is positional *)

Lemma take_cells_identity (ax : list label) (row : list float) :
  length row = length ax -> take_cells (identity_indexer ax) row = row.
Proof.
  intros Hlen. apply list_eq. intros i.
  unfold take_cells, identity_indexer.
  rewrite !list_lookup_fmap.
  destruct (decide (i < length ax)%nat) as [Hi|Hi].
  - rewrite lookup_seq_lt by done. simpl.
    destruct (lookup_lt_is_Some_2 row i) as [c Hc]; [lia|]. by rewrite Hc.
  - rewrite lookup_seq_ge by lia. simpl.
    symmetry. apply lookup_ge_None. lia.
Qed.

Lemma take_rows_identity (idx cols : list label) (a : ndarray) :
  shape_ok a (length idx) (length cols) = true ->
  take_rows (identity_indexer idx) (identity_indexer cols) a = a.
Proof.
  intros [Hlen Hrows]%shape_ok_spec. apply list_eq. intros i.
  unfold take_rows.
  change (identity_indexer idx) with (Some <$> seq 0 (length idx)).
  rewrite !list_lookup_fmap.
  destruct (decide (i < length idx)%nat) as [Hi|Hi].
  - rewrite lookup_seq_lt by done. simpl.
    destruct (lookup_lt_is_Some_2 a i) as [row Hrow]; [lia|].
    rewrite Hrow. simpl. f_equal. apply take_cells_identity.
    eapply Forall_lookup_1 in Hrows; eauto.
  - rewrite lookup_seq_ge by lia. simpl.
    symmetry. apply lookup_ge_None. lia.
Qed.

Lemma index_join_same (a : list label) :
  index_join a a = (a, identity_indexer a, identity_indexer a).
Proof. unfold index_join. by rewrite decide_True. Qed.

Lemma df_mul_aligned (J L : DataFrame) :
  wf J -> wf L -> index L = index J -> columns L = columns J ->
  df_mul J L =
    {| index := index J; columns := columns J;
       to_numpy := elementwise fmul (to_numpy J) (to_numpy L) |}.
Proof.
  intros HJ HL Hi Hc. unfold df_mul. rewrite Hi, Hc, !index_join_same.
  rewrite take_rows_identity by exact HJ.
  rewrite take_rows_identity; [done|].
  unfold wf in HL. by rewrite Hi, Hc in HL.
Qed.

(** ** Finite tables *)

Lemma all_finite_Forall l :
  all_finite l = true <-> Forall (fun x => is_finite x = true) l.
Proof.
  induction l as [|x l IH]; [by split|].
  rewrite all_finite_cons, Forall_cons. by rewrite IH.
Qed.

Lemma finite_array_Forall (a : ndarray) :
  finite_array a = true <-> Forall (fun row => all_finite row = true) a.
Proof.
  unfold finite_array. induction a as [|row a IH]; [by split|].
  simpl. rewrite andb_true_iff, Forall_cons. by rewrite IH.
Qed.

Lemma finite_array_concat (a : ndarray) :
  finite_array a = true -> all_finite (concat a) = true.
Proof.
  rewrite finite_array_Forall. induction 1 as [|row a Hrow _ IH]; [done|].
  simpl. rewrite all_finite_app. by rewrite Hrow, IH.
Qed.

Lemma all_finite_zip_with_fmul l k :
  all_finite l = true -> all_finite k = true ->
  all_finite (zip_with fmul l k) = true.
Proof.
  rewrite !all_finite_Forall. intros Hl Hk.
  eapply Forall_zip_with_fst; [exact Hl|].
  eapply Forall_impl; [exact Hk|]. by intros [] ? [].
Qed.

Lemma finite_array_elementwise_fmul (X Y : ndarray) :
  finite_array X = true -> finite_array Y = true ->
  finite_array (elementwise fmul X Y) = true.
Proof.
  rewrite !finite_array_Forall. intros HX HY. unfold elementwise.
  eapply Forall_zip_with_fst; [exact HX|].
  eapply Forall_impl; [exact HY|].
  intros k Hk l Hl. by apply all_finite_zip_with_fmul.
Qed.

(** ** Dividing a table by its total *)

Lemma concat_fmap_fmap {A B} (f : A -> B) (a : list (list A)) :
  concat (fmap (fun row : list A => fmap f row) a) = fmap f (concat a).
Proof.
  induction a as [|row a IH]; [done|].
  rewrite fmap_cons. simpl. by rewrite IH, fmap_app.
Qed.

Lemma qsum_div (l : list Qc) (s : Qc) :
  qsum (fmap (fun q => q / s) l) = qsum l / s.
Proof.
  induction l as [|q l IH].
  - simpl. unfold Qcdiv. by rewrite Qcmult_0_l.
  - rewrite fmap_cons. unfold qsum in *. cbn [foldr]. rewrite IH.
    unfold Qcdiv. by rewrite Qcmult_plus_distr_l.
Qed.

Lemma fsum_fdiv_total (l : list float) :
  all_finite l = true -> fsum l <> Fin 0 ->
  fsum (fmap (fun x => fdiv x (fsum l)) l) = Fin 1.
Proof.
  intros Hl Hs. rewrite (fsum_finite l Hl) in *.
  set (s := qsum (to_Qc <$> l)) in *.
  assert (Hs0 : s <> 0) by congruence.
  rewrite (all_finite_Fin l Hl) at 1.
  rewrite <- list_fmap_compose.
  erewrite list_fmap_ext with (g := Fin ∘ (fun q => q / s)).
  - rewrite list_fmap_compose, fsum_Fin, qsum_div. f_equal.
    fold s. unfold Qcdiv. by apply Qcmult_inv_r.
  - intros i q _. simpl. by apply fdiv_Fin.
Qed.

Lemma np_sum_df_div_total (a : ndarray) :
  finite_array a = true -> np_sum a <> Fin 0 ->
  np_sum (fmap (fun row : list float =>
                  fmap (fun x => fdiv x (np_sum a)) row) a) = Fin 1.
Proof.
  intros Ha Hs. unfold np_sum in *. rewrite concat_fmap_fmap.
  apply fsum_fdiv_total; [by apply finite_array_concat | done].
Qed.

(** ** The update of aligned tables *)

Lemma update_aligned (J L : DataFrame) :
  wf J -> wf L -> index L = index J -> columns L = columns J ->
  let product := elementwise fmul (to_numpy J) (to_numpy L) in
  update J L =
    ({| index := index J; columns := columns J;
        to_numpy := fmap (fun row : list float =>
                            fmap (fun x => fdiv x (np_sum product)) row)
                         product |},
     np_sum product).
Proof.
  intros HJ HL Hi Hc product. unfold update, normalize.
  by rewrite df_mul_aligned.
Qed.

(** C1.  For a joint table [J] and a likelihood table [L] with the same
    row labels and column names, the update computes the cell-by-cell
    product of [J] and [L], returns the sum of that product as the
    evidence and leaves in the posterior the product divided by that sum;
    when the cells are finite and the evidence is not zero, the cells of
    the posterior sum to 1. *)
Theorem update_normalized_product (J L : DataFrame) :
  wf J -> wf L -> index L = index J -> columns L = columns J ->
  let product := elementwise fmul (to_numpy J) (to_numpy L) in
  let posterior := fst (update J L) in
  let evidence := snd (update J L) in
  evidence = np_sum product /\
  index posterior = index J /\
  columns posterior = columns J /\
  to_numpy posterior =
    fmap (fun row : list float => fmap (fun x => fdiv x evidence) row)
         product /\
  (finite_array (to_numpy J) = true -> finite_array (to_numpy L) = true ->
   evidence <> Fin 0 -> np_sum (to_numpy posterior) = Fin 1).
Proof.
  intros HJ HL Hi Hc product posterior evidence.
  subst posterior evidence. rewrite (update_aligned J L HJ HL Hi Hc).
  cbn [fst snd index columns to_numpy]. fold product.
  repeat split. intros HfJ HfL Hev.
  apply np_sum_df_div_total; [|done].
  by apply finite_array_elementwise_fmul.
Qed.

Lemma update_normalized_product_witness :
  snd (update joint22 like22) = Fin (frac 1 4) /\
  np_sum (to_numpy (fst (update joint22 like22))) = Fin 1.
Proof.
  destruct (update_normalized_product joint22 like22
              ltac:(compute_done) ltac:(compute_done)
              ltac:(compute_done) ltac:(compute_done))
    as (He & _ & _ & _ & Hone).
  split; [rewrite He; compute_done|].
  apply Hone; compute_done.
Defined.

(** ** The outer product *)

Lemma elementwise_meshgrid {A C} (f : A -> A -> C) (x y : list A) :
  elementwise f (fst (meshgrid x y)) (snd (meshgrid x y))
  = fmap (fun yi => fmap (fun xj => f xj yi) x) y.
Proof.
  unfold elementwise, meshgrid. cbn [fst snd].
  rewrite zip_with_fmap_l, zip_with_fmap_r, zip_with_diag.
  apply list_fmap_ext. intros _ yi _.
  by rewrite zip_with_fmap_r, zip_with_diag.
Qed.

Lemma qs_length (pmf : Pmf) : length (qs pmf) = length (ps pmf).
Proof. unfold qs, ps. by rewrite !length_fmap. Qed.

Lemma make_joint_Ok (pmf1 pmf2 : Pmf) :
  make_joint pmf1 pmf2 =
    Ok {| index := qs pmf2; columns := qs pmf1;
          to_numpy := fmap (fun wy => fmap (fun wx => fmul wx wy) (ps pmf1))
                           (ps pmf2) |}.
Proof.
  unfold make_joint, pd_DataFrame.
  pose proof (meshgrid_shape fmul (ps pmf1) (ps pmf2)) as Hshape.
  rewrite <- !qs_length in Hshape.
  destruct (meshgrid (ps pmf1) (ps pmf2)) as [X Y] eqn:HXY.
  cbn [fst snd] in Hshape. rewrite Hshape.
  do 2 f_equal.
  change X with (fst (X, Y)). change Y with (snd (X, Y)) at 2.
  rewrite <- HXY. apply elementwise_meshgrid.
Qed.

Lemma fsum_fmul_r (l : list float) (c : float) :
  all_finite l = true -> is_finite c = true ->
  fsum (fmap (fun x => fmul x c) l) = fmul (fsum l) c.
Proof.
  intros Hl Hc. rewrite (is_finite_Fin c Hc). generalize (to_Qc c) as q.
  intros q. induction l as [|x l IH].
  - simpl. by rewrite Qcmult_0_l.
  - apply all_finite_cons in Hl as [Hx Hl].
    rewrite fmap_cons, !fsum_cons, IH by done.
    rewrite (is_finite_Fin x Hx), (fsum_finite l Hl). simpl.
    by rewrite Qcmult_plus_distr_l.
Qed.

Lemma fsum_fmul_l (l : list float) (c : float) :
  all_finite l = true -> is_finite c = true ->
  fsum (fmap (fun x => fmul c x) l) = fmul c (fsum l).
Proof.
  intros Hl Hc. rewrite (is_finite_Fin c Hc). generalize (to_Qc c) as q.
  intros q. induction l as [|x l IH].
  - simpl. by rewrite Qcmult_0_r.
  - apply all_finite_cons in Hl as [Hx Hl].
    rewrite fmap_cons, !fsum_cons, IH by done.
    rewrite (is_finite_Fin x Hx), (fsum_finite l Hl). simpl.
    by rewrite Qcmult_plus_distr_r.
Qed.

Lemma fmul_comm x y : fmul x y = fmul y x.
Proof. destruct x, y; simpl; try done. by rewrite Qcmult_comm. Qed.

Lemma fmul_1_l x : fmul (Fin 1) x = x.
Proof. by rewrite fmul_comm, fmul_1_r. Qed.

Lemma is_finite_fsum l : all_finite l = true -> is_finite (fsum l) = true.
Proof. intros Hl. by rewrite (fsum_finite l Hl). Qed.

Lemma all_finite_In l x :
  all_finite l = true -> x ∈ l -> is_finite x = true.
Proof. rewrite all_finite_Forall, Forall_forall. auto. Qed.

Lemma outer_row_sum (p1 : list float) (wy : float) :
  all_finite p1 = true -> is_finite wy = true ->
  nansum (fmap (fun wx => fmul wx wy) p1) = fmul (fsum p1) wy.
Proof.
  intros H1 Hy. rewrite nansum_finite; [by apply fsum_fmul_r|].
  apply all_finite_Forall, Forall_fmap, Forall_forall. intros wx Hwx. simpl.
  apply (all_finite_In p1 wx H1) in Hwx. by destruct wx, wy.
Qed.

Lemma outer_total (p1 p2 : list float) :
  all_finite p1 = true -> all_finite p2 = true ->
  np_sum (fmap (fun wy => fmap (fun wx => fmul wx wy) p1) p2)
  = fmul (fsum p1) (fsum p2).
Proof.
  intros H1 H2. unfold np_sum. rewrite fsum_concat, <- list_fmap_compose.
  erewrite list_fmap_ext with (g := fun wy => fmul (fsum p1) wy).
  - apply fsum_fmul_l; [done | by apply is_finite_fsum].
  - intros i wy Hwy. simpl. apply fsum_fmul_r; [done|].
    apply (all_finite_In p2); [done|]. by eapply list_elem_of_lookup_2.
Qed.

(** C2.  [make_joint] of two distributions returns a table whose column
    names are the quantities of the first and whose row labels are the
    quantities of the second, with cell (row [y], column [x]) the product
    of the weight of [x] in the first and of [y] in the second; for
    finite weights the cells sum to the product of the two masses, hence
    to 1 when both distributions are normalized. *)
Theorem make_joint_outer_product (pmf1 pmf2 : Pmf) :
  exists joint,
    make_joint pmf1 pmf2 = Ok joint /\
    wf joint /\
    columns joint = qs pmf1 /\
    index joint = qs pmf2 /\
    (forall i j x y w1 w2,
        pmf1 !! j = Some (x, w1) -> pmf2 !! i = Some (y, w2) ->
        columns joint !! j = Some x /\ index joint !! i = Some y /\
        cell (to_numpy joint) i j = Some (fmul w1 w2)) /\
    (finite_pmf pmf1 = true -> finite_pmf pmf2 = true ->
     np_sum (to_numpy joint) = fmul (Pmf_sum pmf1) (Pmf_sum pmf2) /\
     (Pmf_sum pmf1 = Fin 1 -> Pmf_sum pmf2 = Fin 1 ->
      np_sum (to_numpy joint) = Fin 1)).
Proof.
  eexists. split; [apply make_joint_Ok|]. cbn [index columns to_numpy].
  split; [|split; [done|split; [done|split]]].
  - unfold wf. cbn [index columns to_numpy].
    rewrite <- elementwise_meshgrid, !qs_length. apply meshgrid_shape.
  - intros i j x y w1 w2 H1 H2. unfold qs, ps, cell.
    rewrite !list_lookup_fmap, H1, H2. simpl.
    by rewrite !list_lookup_fmap, H1.
  - intros Hf1 Hf2. unfold Pmf_sum.
    rewrite !nansum_finite by done.
    assert (Htot := outer_total (ps pmf1) (ps pmf2) Hf1 Hf2).
    split; [done|]. intros E1 E2. by rewrite Htot, E1, E2.
Qed.

Lemma make_joint_outer_product_witness :
  exists joint, make_joint pmf123 pmf_ab = Ok joint /\
                np_sum (to_numpy joint) = Fin 1.
Proof.
  destruct (make_joint_outer_product pmf123 pmf_ab)
    as (joint & Hjoint & _ & _ & _ & _ & Hsum).
  exists joint. split; [exact Hjoint|].
  apply Hsum; compute_done.
Defined.

(** ** Marginals *)

Lemma fmap_lookup_seq (row : list float) :
  fmap (fun j => default NaN (row !! j)) (seq 0 (length row)) = row.
Proof.
  apply list_eq. intros i. rewrite list_lookup_fmap.
  destruct (decide (i < length row)%nat) as [Hi|Hi].
  - rewrite lookup_seq_lt by done. simpl.
    destruct (lookup_lt_is_Some_2 row i Hi) as [c Hc]. by rewrite Hc.
  - rewrite lookup_seq_ge by lia. symmetry. apply lookup_ge_None. lia.
Qed.

Lemma fsum_zeros {A} (l : list A) : fsum (fmap (fun _ => Fin 0) l) = Fin 0.
Proof.
  induction l as [|x l IH]; [done|].
  by rewrite fmap_cons, fsum_cons, IH.
Qed.

(** Adding up the column totals of a rectangular array gives the total
    of the array. *)
Lemma column_sums_total (a : ndarray) (m : nat) :
  Forall (fun row => length row = m) a ->
  fsum (fmap (fun j => fsum (column a j)) (seq 0 m)) = fsum (concat a).
Proof.
  induction 1 as [|row a Hrow _ IH].
  - apply fsum_zeros.
  - unfold column in *. setoid_rewrite fmap_cons.
    setoid_rewrite fsum_cons. rewrite fsum_fadd, IH.
    simpl. rewrite fsum_app. f_equal.
    rewrite <- Hrow. by rewrite fmap_lookup_seq.
Qed.

Lemma all_finite_lookup l j :
  all_finite l = true -> (j < length l)%nat ->
  is_finite (default NaN (l !! j)) = true.
Proof.
  intros Hl Hj. destruct (lookup_lt_is_Some_2 l j Hj) as [c Hc].
  rewrite Hc. simpl. eapply all_finite_In; [done|].
  by eapply list_elem_of_lookup_2.
Qed.

Lemma all_finite_column (a : ndarray) (m j : nat) :
  Forall (fun row => length row = m) a -> finite_array a = true ->
  (j < m)%nat -> all_finite (column a j) = true.
Proof.
  intros Hshape Hfin%finite_array_Forall Hj.
  apply all_finite_Forall, Forall_fmap, Forall_forall.
  intros row Hrow. simpl.
  rewrite Forall_forall in Hshape, Hfin.
  apply all_finite_lookup; [by apply Hfin|]. by rewrite Hshape.
Qed.

Lemma all_finite_fmap_fsum (a : ndarray) :
  finite_array a = true -> all_finite (fmap fsum a) = true.
Proof.
  intros Hfin%finite_array_Forall.
  apply all_finite_Forall, Forall_fmap.
  eapply Forall_impl; [exact Hfin|]. intros row Hrow. simpl.
  by apply is_finite_fsum.
Qed.

Lemma row_sums_finite (a : ndarray) :
  finite_array a = true -> fmap nansum a = fmap fsum a.
Proof.
  intros Hfin%finite_array_Forall. apply Forall_fmap_ext_1.
  eapply Forall_impl; [exact Hfin|]. intros row Hrow. simpl.
  by apply nansum_finite.
Qed.

Lemma column_sums_finite (a : ndarray) (m : nat) :
  Forall (fun row => length row = m) a -> finite_array a = true ->
  fmap (fun j => nansum (column a j)) (seq 0 m)
  = fmap (fun j => fsum (column a j)) (seq 0 m).
Proof.
  intros Hshape Hfin. apply list_fmap_ext. intros i j Hj.
  apply lookup_seq in Hj as [-> Hi]. apply nansum_finite.
  by eapply all_finite_column.
Qed.

Lemma marginal_axis1_total (J : DataFrame) :
  wf J -> finite_array (to_numpy J) = true ->
  Pmf_sum (marginal J axis1) = np_sum (to_numpy J).
Proof.
  intros [Hlen Hrows]%shape_ok_spec Hfin.
  unfold Pmf_sum, marginal, df_sum, ps, np_sum.
  rewrite snd_zip by (rewrite length_fmap; lia).
  rewrite row_sums_finite by done.
  rewrite nansum_finite by (by apply all_finite_fmap_fsum).
  by rewrite fsum_concat.
Qed.

Lemma marginal_axis0_total (J : DataFrame) :
  wf J -> finite_array (to_numpy J) = true ->
  Pmf_sum (marginal J axis0) = np_sum (to_numpy J).
Proof.
  intros [Hlen Hrows]%shape_ok_spec Hfin.
  unfold Pmf_sum, marginal, df_sum, ps, np_sum.
  rewrite snd_zip by (rewrite length_fmap, length_seq; lia).
  rewrite (column_sums_finite _ _ Hrows Hfin).
  rewrite nansum_finite; [by apply column_sums_total|].
  apply all_finite_Forall, Forall_fmap, Forall_forall.
  intros j [i [-> Hi]%lookup_seq]%list_elem_of_lookup. simpl.
  apply is_finite_fsum. by eapply all_finite_column.
Qed.

(** C10.  For a table with finite cells, the weights of the marginal
    along either axis add up to the sum of all cells of the table; so
    both marginals of a normalized table sum to 1 as they are. *)
Theorem marginal_total (J : DataFrame) :
  wf J -> finite_array (to_numpy J) = true ->
  (forall ax, Pmf_sum (marginal J ax) = np_sum (to_numpy J)) /\
  (np_sum (to_numpy J) = Fin 1 ->
   Pmf_sum (marginal J axis0) = Fin 1 /\ Pmf_sum (marginal J axis1) = Fin 1).
Proof.
  intros Hwf Hfin.
  assert (Hall : forall ax, Pmf_sum (marginal J ax) = np_sum (to_numpy J)).
  { intros []; [by apply marginal_axis0_total | by apply marginal_axis1_total]. }
  split; [exact Hall|]. intros Hone. by rewrite !Hall.
Qed.

Lemma marginal_total_witness :
  Pmf_sum (marginal joint22 axis0) = Fin 1 /\
  Pmf_sum (marginal joint22 axis1) = Fin 1.
Proof.
  destruct (marginal_total joint22 ltac:(compute_done) ltac:(compute_done))
    as [_ Hone].
  apply Hone. compute_done.
Defined.

(** ** Marginals of an outer product *)

Lemma all_finite_fmul_l (l : list float) (c : float) :
  all_finite l = true -> is_finite c = true ->
  all_finite (fmap (fun x => fmul c x) l) = true.
Proof.
  intros Hl Hc. apply all_finite_Forall, Forall_fmap, Forall_forall.
  intros x Hx. simpl. apply (all_finite_In l x Hl) in Hx. by destruct c, x.
Qed.

Lemma outer_row_sums (p1 p2 : list float) :
  all_finite p1 = true -> all_finite p2 = true -> fsum p1 = Fin 1 ->
  fmap nansum (fmap (fun wy => fmap (fun wx => fmul wx wy) p1) p2) = p2.
Proof.
  intros H1 H2 Hone. rewrite <- list_fmap_compose.
  rewrite <- (list_fmap_id p2) at 2. apply list_fmap_ext.
  intros i wy Hwy. simpl. rewrite outer_row_sum, Hone; [apply fmul_1_l|done|].
  apply (all_finite_In p2); [done|]. by eapply list_elem_of_lookup_2.
Qed.

Lemma outer_column (p1 p2 : list float) (j : nat) (wx : float) :
  p1 !! j = Some wx ->
  column (fmap (fun wy => fmap (fun wx => fmul wx wy) p1) p2) j
  = fmap (fun wy => fmul wx wy) p2.
Proof.
  intros Hj. unfold column. rewrite <- list_fmap_compose.
  apply list_fmap_ext. intros i wy _. simpl.
  by rewrite list_lookup_fmap, Hj.
Qed.

Lemma outer_column_sums (p1 p2 : list float) :
  all_finite p1 = true -> all_finite p2 = true -> fsum p2 = Fin 1 ->
  fmap (fun j => nansum (column
                   (fmap (fun wy => fmap (fun wx => fmul wx wy) p1) p2) j))
       (seq 0 (length p1)) = p1.
Proof.
  intros H1 H2 Hone. apply list_eq. intros i. rewrite list_lookup_fmap.
  destruct (decide (i < length p1)%nat) as [Hi|Hi].
  - rewrite lookup_seq_lt by done.
    destruct (lookup_lt_is_Some_2 p1 i Hi) as [wx Hwx].
    rewrite Hwx. simpl. f_equal.
    assert (Hfx : is_finite wx = true).
    { apply (all_finite_In p1); [done|]. by eapply list_elem_of_lookup_2. }
    rewrite (outer_column p1 p2 i wx Hwx).
    rewrite nansum_finite by (by apply all_finite_fmul_l).
    rewrite fsum_fmul_l, Hone by done. apply fmul_1_r.
  - rewrite lookup_seq_ge by lia. symmetry. apply lookup_ge_None. lia.
Qed.

(** C3.  Round trip.  For normalized distributions [p1] and [p2] with
    finite weights, the joint table [make_joint p1 p2] gives [p2] back
    when the first variable is summed out ([axis=1], adding along each
    row) and [p1] back when the second variable is summed out ([axis=0],
    adding along each column). *)
Theorem marginal_make_joint_roundtrip (p1 p2 : Pmf) :
  finite_pmf p1 = true -> finite_pmf p2 = true ->
  Pmf_sum p1 = Fin 1 -> Pmf_sum p2 = Fin 1 ->
  exists joint,
    make_joint p1 p2 = Ok joint /\
    marginal joint axis1 = p2 /\
    marginal joint axis0 = p1.
Proof.
  intros Hf1 Hf2 E1 E2. unfold Pmf_sum in *.
  rewrite nansum_finite in E1, E2 by done.
  eexists. split; [apply make_joint_Ok|].
  unfold marginal, df_sum. cbn [index columns to_numpy]. split.
  - rewrite outer_row_sums by done. apply zip_fst_snd.
  - rewrite qs_length, outer_column_sums by done. apply zip_fst_snd.
Qed.

Lemma marginal_make_joint_roundtrip_witness :
  exists joint, make_joint pmf123 pmf_ab = Ok joint /\
                marginal joint axis1 = pmf_ab /\ marginal joint axis0 = pmf123.
Proof.
  apply (marginal_make_joint_roundtrip pmf123 pmf_ab); compute_done.
Defined.

(** ** An all-ones likelihood *)

Lemma zip_with_fmul_ones (l k : list float) :
  length k = length l -> Forall (fun c => c = Fin 1) k ->
  zip_with fmul l k = l.
Proof.
  revert k. induction l as [|x l IH]; intros [|c k] Hlen Hk; try done.
  apply Forall_cons in Hk as [-> Hk]. simpl.
  rewrite fmul_1_r, IH; [done| |done]. simpl in Hlen. lia.
Qed.

Lemma elementwise_fmul_ones (X Y : ndarray) (m : nat) :
  length Y = length X ->
  Forall (fun row => length row = m) X ->
  Forall (fun row => length row = m) Y ->
  Forall (Forall (fun c => c = Fin 1)) Y ->
  elementwise fmul X Y = X.
Proof.
  unfold elementwise. revert Y.
  induction X as [|row X IH]; intros [|ones Y] Hlen HX HY Hone; try done.
  apply Forall_cons in HX as [Hrow HX]. apply Forall_cons in HY as [Hones HY].
  apply Forall_cons in Hone as [Hone1 Hone]. simpl.
  rewrite zip_with_fmul_ones, IH; try done; [|lia].
  simpl in Hlen. lia.
Qed.

Lemma df_div_one (a : ndarray) :
  fmap (fun row : list float => fmap (fun x => fdiv x (Fin 1)) row) a = a.
Proof.
  rewrite <- (list_fmap_id a) at 2. apply list_fmap_ext. intros _ row _.
  rewrite <- (list_fmap_id row) at 2. apply list_fmap_ext. intros _ x _.
  apply fdiv_1_r.
Qed.

(** C8.  Updating a normalized joint table with a likelihood table whose
    cells are all 1, on the same axes, leaves the table as it is, cell
    for cell, and returns the total mass of the table as the evidence. *)
Theorem update_all_ones (J L : DataFrame) :
  wf J -> wf L -> index L = index J -> columns L = columns J ->
  Forall (Forall (fun c => c = Fin 1)) (to_numpy L) ->
  np_sum (to_numpy J) = Fin 1 ->
  update J L = (J, np_sum (to_numpy J)).
Proof.
  intros HJ HL Hi Hc Hones Hnorm.
  rewrite (update_aligned J L HJ HL Hi Hc). cbv zeta.
  apply shape_ok_spec in HJ as [HJn HJm]. apply shape_ok_spec in HL as [HLn HLm].
  rewrite (elementwise_fmul_ones _ _ (length (columns J))); try done.
  - rewrite Hnorm, df_div_one. by destruct J.
  - rewrite HLn, HJn. by rewrite Hi.
  - by rewrite <- Hc.
Qed.

Lemma update_all_ones_witness :
  update joint22 ones22 = (joint22, Fin 1).
Proof.
  rewrite (update_all_ones joint22 ones22); compute_done.
Defined.

(** ** The axes of the likelihood table *)

Lemma np_where_gtb (X Y : list (list label)) :
  np_where (elementwise Qc_gtb X Y) = elementwise taller X Y.
Proof.
  unfold np_where, elementwise. revert Y.
  induction X as [|x X IH]; intros [|y Y]; try done.
  simpl. rewrite IH. f_equal.
  clear. revert y. induction x as [|a x IH]; intros [|b y]; try done.
  simpl. by rewrite IH.
Qed.

Lemma likelihood_likelihood_of (joint : DataFrame) :
  likelihood joint = likelihood_of taller (columns joint) (index joint).
Proof.
  unfold likelihood, likelihood_of.
  destruct (meshgrid (columns joint) (index joint)) as [X Y].
  by rewrite np_where_gtb.
Qed.

Lemma likelihood_of_shape (f : label -> label -> float) (x y : list label) :
  likelihood_of f x y =
    if Nat.eqb (length y) (length x)
    then Ok {| index := x; columns := y;
               to_numpy := fmap (fun yi => fmap (fun xj => f xj yi) x) y |}
    else Raise ValueError.
Proof.
  unfold likelihood_of, pd_DataFrame.
  pose proof (elementwise_meshgrid f x y) as Hmesh.
  destruct (meshgrid x y) as [X Y]. cbn [fst snd] in Hmesh. rewrite Hmesh.
  unfold shape_ok. rewrite length_fmap.
  destruct (Nat.eqb_spec (length y) (length x)) as [Hlen|Hlen]; [|done].
  rewrite Hlen, (proj2 (forallb_forall _ _)); [done|].
  intros row [yi [-> _]]%list_elem_of_In%list_elem_of_fmap.
  rewrite length_fmap. apply Nat.eqb_refl.
Qed.

(** C4 (the code departs from the claim).  On the notebook's own
    sequences [x = [1,3,5]], [y = [2,4]] the joint table is built, with
    [x] on the columns and [y] on the rows, but evaluating the likelihood
    raises [ValueError] whatever the evidence function: the array has one
    row per element of [y] and the frame is asked to label its rows with
    [x].  On sequences of equal length the frame is built with the labels
    exchanged: [x] on the rows and [y] on the columns. *)
Theorem likelihood_axes_exchanged (f : label -> label -> float) :
  (exists joint, make_joint (ones_on x135) (ones_on y24) = Ok joint /\
                 columns joint = x135 /\ index joint = y24) /\
  likelihood_of f x135 y24 = Raise ValueError /\
  (exists joint lik,
      make_joint (ones_on x12) (ones_on y34) = Ok joint /\
      likelihood_of f x12 y34 = Ok lik /\
      columns joint = x12 /\ index joint = y34 /\
      columns lik = y34 /\ index lik = x12 /\
      index lik <> index joint).
Proof.
  split; [|split].
  - eexists. split; [apply make_joint_Ok|]. by split.
  - by rewrite likelihood_of_shape.
  - eexists _, _. split; [apply make_joint_Ok|].
    split; [by rewrite likelihood_of_shape|].
    cbn [index columns]. repeat split. compute_done.
Qed.

(** ** Zero evidence *)

Lemma zip_with_fmul_zeros (l k : list float) :
  all_finite l = true -> length k = length l ->
  Forall (fun c => c = Fin 0) k ->
  zip_with fmul l k = replicate (length l) (Fin 0).
Proof.
  revert k. induction l as [|x l IH]; intros [|c k] Hl Hlen Hk; try done.
  apply all_finite_cons in Hl as [Hx Hl].
  apply Forall_cons in Hk as [-> Hk]. simpl.
  rewrite IH; [|done| simpl in Hlen; lia |done].
  f_equal. rewrite (is_finite_Fin x Hx). simpl. by rewrite Qcmult_0_r.
Qed.

Lemma elementwise_fmul_zeros (X Y : ndarray) (m : nat) :
  finite_array X = true -> length Y = length X ->
  Forall (fun row => length row = m) X ->
  Forall (fun row => length row = m) Y ->
  Forall (Forall (fun c => c = Fin 0)) Y ->
  elementwise fmul X Y = replicate (length X) (replicate m (Fin 0)).
Proof.
  unfold elementwise. rewrite finite_array_Forall. revert Y.
  induction X as [|row X IH]; intros [|zs Y] Hfin Hlen HX HY Hz; try done.
  apply Forall_cons in Hfin as [Hfrow Hfin].
  apply Forall_cons in HX as [Hrow HX]. apply Forall_cons in HY as [Hzs HY].
  apply Forall_cons in Hz as [Hz1 Hz]. simpl.
  rewrite zip_with_fmul_zeros, IH; try done.
  - by rewrite Hrow.
  - simpl in Hlen. lia.
  - lia.
Qed.

Lemma np_sum_zeros (n m : nat) :
  np_sum (replicate n (replicate m (Fin 0))) = Fin 0.
Proof.
  unfold np_sum. rewrite fsum_concat, fmap_replicate.
  assert (Hrow : fsum (replicate m (Fin 0)) = Fin 0).
  { induction m as [|m IH]; [done|].
    rewrite replicate_S, fsum_cons, IH. apply fadd_0_l. }
  rewrite Hrow. induction n as [|n IH]; [done|].
  rewrite replicate_S, fsum_cons, IH. apply fadd_0_l.
Qed.

(** C5 (amended).  The update has no zero-evidence failure.  For tables
    on the same axes with finite cells: when the product of joint prior
    and likelihood sums to zero, the update returns the evidence 0 and the
    product divided by zero as posterior, a table none of whose cells is
    a finite number; and when the likelihood is 0 in every cell, the
    posterior returned has [NaN] in every cell. *)
Theorem update_zero_evidence (J L : DataFrame) :
  wf J -> wf L -> index L = index J -> columns L = columns J ->
  finite_array (to_numpy J) = true -> finite_array (to_numpy L) = true ->
  let product := elementwise fmul (to_numpy J) (to_numpy L) in
  (np_sum product = Fin 0 ->
   update J L =
     ({| index := index J; columns := columns J;
         to_numpy := fmap (fun row : list float =>
                             fmap (fun x => fdiv x (Fin 0)) row) product |},
      Fin 0) /\
   Forall (Forall (fun c => is_finite c = false)) (to_numpy (fst (update J L))))
  /\
  (Forall (Forall (fun c => c = Fin 0)) (to_numpy L) ->
   update J L = (constant_frame (index J) (columns J) NaN, Fin 0)).
Proof.
  intros HJ HL Hi Hc HfJ HfL product.
  rewrite (update_aligned J L HJ HL Hi Hc). fold product. split.
  - intros Hsum. rewrite Hsum. split; [done|]. cbn [fst to_numpy].
    apply Forall_fmap, Forall_forall. intros row _. simpl.
    apply Forall_fmap, Forall_forall. intros c _. simpl.
    apply fdiv_zero_not_finite.
  - intros Hz. subst product.
    apply shape_ok_spec in HJ as [HJn HJm].
    apply shape_ok_spec in HL as [HLn HLm].
    rewrite (elementwise_fmul_zeros _ _ (length (columns J))); try done.
    + rewrite np_sum_zeros. unfold constant_frame. do 2 f_equal.
      rewrite !fmap_replicate. by rewrite HJn.
    + rewrite HLn, HJn. by rewrite Hi.
    + by rewrite <- Hc.
Qed.

Lemma update_zero_evidence_witness :
  let zeros := constant_frame (index joint22) (columns joint22) (Fin 0) in
  Forall (Forall (fun c => is_finite c = false))
         (to_numpy (fst (update joint22 zeros))) /\
  update joint22 zeros
  = (constant_frame (index joint22) (columns joint22) NaN, Fin 0).
Proof.
  intros zeros.
  destruct (update_zero_evidence joint22 zeros
              ltac:(compute_done) ltac:(compute_done) ltac:(compute_done)
              ltac:(compute_done) ltac:(compute_done) ltac:(compute_done))
    as [Hsum Hzeros].
  split.
  - apply Hsum. compute_done.
  - apply Hzeros. compute_done.
Defined.

(** C5 (as claimed, refuted).  With the evidence function [x > y + 1000]
    on the support {1, 2, 3} the likelihood is 0 everywhere and the
    product sums to zero; the statements run to the end without an
    exception and leave a posterior whose cells are all [NaN], with
    evidence 0. *)
Lemma update_zero_evidence_returns_nan :
  (joint <<- make_joint pmf123 pmf123 ;;
   lik <<- likelihood_of far_taller (columns joint) (index joint) ;;
   Ok (np_sum (elementwise fmul (to_numpy joint) (to_numpy lik)),
       update joint lik))
  = Ok (Fin 0, (constant_frame (qs pmf123) (qs pmf123) NaN, Fin 0)).
Proof. compute_done. Qed.

(** ** Misaligned operands *)

Lemma get_loc_None (ax : list label) (k : label) :
  k ∉ ax -> get_loc ax k = None.
Proof.
  intros Hk. unfold get_loc.
  destruct (list_find (fun x => x = k) ax) as [[i x]|] eqn:Hfind; [|done].
  apply list_find_Some in Hfind as (Hi & -> & _).
  destruct Hk. by eapply list_elem_of_lookup_2.
Qed.

Lemma get_loc_Some (ax : list label) (k : label) (i : nat) :
  get_loc ax k = Some i -> ax !! i = Some k.
Proof.
  unfold get_loc.
  destruct (list_find (fun x => x = k) ax) as [[j x]|] eqn:Hfind; [|done].
  apply list_find_Some in Hfind as (Hj & -> & _). by intros [= <-].
Qed.

Lemma elem_of_index_union (a b : list label) (x : label) :
  x ∈ index_union a b <-> x ∈ a \/ x ∈ b.
Proof.
  unfold index_union.
  by rewrite merge_sort_Permutation, elem_of_remove_dups, elem_of_app.
Qed.

(** The joined axis carries the labels of both axes and no other. *)
Lemma elem_of_index_join (a b : list label) (x : label) :
  x ∈ fst (fst (index_join a b)) <-> x ∈ a \/ x ∈ b.
Proof.
  unfold index_join. destruct (decide (a = b)) as [->|Hne]; simpl.
  - tauto.
  - destruct a as [|a0 a], b as [|b0 b]; try done.
    + rewrite elem_of_nil. tauto.
    + rewrite elem_of_nil. tauto.
    + apply elem_of_index_union.
Qed.

Lemma index_join_lengths (a b : list label) :
  length (snd (fst (index_join a b))) = length (fst (fst (index_join a b))) /\
  length (snd (index_join a b)) = length (fst (fst (index_join a b))).
Proof.
  unfold index_join. destruct (decide (a = b)) as [->|Hne]; simpl.
  - unfold identity_indexer. by rewrite length_fmap, length_seq.
  - by rewrite !length_fmap.
Qed.

(** Where a joined label is missing from an operand, that operand's
    indexer names no position. *)
Lemma index_join_missing_l (a b : list label) (x : label) (i : nat) :
  fst (fst (index_join a b)) !! i = Some x -> x ∉ a ->
  snd (fst (index_join a b)) !! i = Some None.
Proof.
  unfold index_join. destruct (decide (a = b)) as [->|Hne]; simpl.
  - intros Hi Hx. destruct Hx. by eapply list_elem_of_lookup_2.
  - intros Hi Hx. rewrite list_lookup_fmap, Hi. simpl. f_equal.
    by apply get_loc_None.
Qed.

Lemma index_join_missing_r (a b : list label) (x : label) (i : nat) :
  fst (fst (index_join a b)) !! i = Some x -> x ∉ b ->
  snd (index_join a b) !! i = Some None.
Proof.
  unfold index_join. destruct (decide (a = b)) as [->|Hne]; simpl.
  - intros Hi Hx. destruct Hx. by eapply list_elem_of_lookup_2.
  - intros Hi Hx. rewrite list_lookup_fmap, Hi. simpl. f_equal.
    by apply get_loc_None.
Qed.

Lemma take_rows_cell (rix cix : indexer) (a : ndarray) i k oi ok :
  rix !! i = Some oi -> cix !! k = Some ok ->
  exists c, cell (take_rows rix cix a) i k = Some c /\
            (oi = None \/ ok = None -> c = NaN).
Proof.
  intros Hi Hk. unfold cell, take_rows.
  rewrite list_lookup_fmap, Hi. simpl. destruct oi as [i'|].
  - unfold take_cells. rewrite list_lookup_fmap, Hk. simpl.
    eexists. split; [done|]. intros [?| ->]; done.
  - rewrite list_lookup_fmap, Hk. simpl. eauto.
Qed.

Lemma elementwise_cell {A B C} (f : A -> B -> C) X Y i k x y :
  X !! i ≫= (fun row => row !! k) = Some x ->
  Y !! i ≫= (fun row => row !! k) = Some y ->
  elementwise f X Y !! i ≫= (fun row => row !! k) = Some (f x y).
Proof.
  unfold elementwise. intros HX HY. rewrite lookup_zip_with.
  destruct (X !! i) as [rx|]; [|done]. destruct (Y !! i) as [ry|]; [|done].
  simpl in *. by rewrite lookup_zip_with, HX, HY.
Qed.

Lemma cell_elem_of_concat (a : ndarray) i k c :
  cell a i k = Some c -> c ∈ concat a.
Proof.
  unfold cell. intros H. destruct (a !! i) as [row|] eqn:Hrow; [|done].
  simpl in H. apply list_elem_of_In, in_concat. exists row.
  split; apply list_elem_of_In; by eapply list_elem_of_lookup_2.
Qed.

Lemma df_mul_cell_nan (J L : DataFrame) (i k : nat) :
  let rows := index_join (index J) (index L) in
  let cols := index_join (columns J) (columns L) in
  (i < length (fst (fst rows)))%nat ->
  (k < length (fst (fst cols)))%nat ->
  snd (fst rows) !! i = Some None \/ snd rows !! i = Some None \/
  snd (fst cols) !! k = Some None \/ snd cols !! k = Some None ->
  cell (to_numpy (df_mul J L)) i k = Some NaN.
Proof.
  intros rows cols Hi Hk Hmiss. unfold df_mul. fold rows cols.
  destruct (index_join_lengths (index J) (index L)) as [Hl1 Hl2].
  destruct (index_join_lengths (columns J) (columns L)) as [Hc1 Hc2].
  fold rows in Hl1, Hl2. fold cols in Hc1, Hc2.
  destruct rows as [[idx lrix] rrix], cols as [[cls lcix] rcix].
  cbn [fst snd to_numpy] in *.
  destruct (lookup_lt_is_Some_2 lrix i) as [oil Hoil]; [lia|].
  destruct (lookup_lt_is_Some_2 rrix i) as [oir Hoir]; [lia|].
  destruct (lookup_lt_is_Some_2 lcix k) as [okl Hokl]; [lia|].
  destruct (lookup_lt_is_Some_2 rcix k) as [okr Hokr]; [lia|].
  destruct (take_rows_cell lrix lcix (to_numpy J) i k oil okl Hoil Hokl)
    as (c1 & Hc1' & Hn1).
  destruct (take_rows_cell rrix rcix (to_numpy L) i k oir okr Hoir Hokr)
    as (c2 & Hc2' & Hn2).
  unfold cell in *. rewrite (elementwise_cell fmul _ _ i k c1 c2 Hc1' Hc2').
  f_equal.
  destruct Hmiss as [H|[H|[H|H]]]; simplify_eq.
  - by rewrite Hn1 by auto.
  - rewrite Hn2 by auto. apply fmul_NaN_r.
  - by rewrite Hn1 by auto.
  - rewrite Hn2 by auto. apply fmul_NaN_r.
Qed.

Lemma get_loc_elem_of (ax : list label) (k : label) :
  k ∈ ax -> exists i, get_loc ax k = Some i.
Proof.
  intros Hk.
  destruct (list_find_elem_of (fun x => x = k) ax k Hk eq_refl) as [[i x] Hfind].
  exists i. unfold get_loc. by rewrite Hfind.
Qed.

(** Where an operand carries a joined label, its indexer names the
    position of that label on the operand's axis. *)
Lemma index_join_present_l (a b : list label) (x : label) (i : nat) :
  get_loc (fst (fst (index_join a b))) x = Some i ->
  snd (fst (index_join a b)) !! i = Some (get_loc a x).
Proof.
  unfold index_join. destruct (decide (a = b)) as [->|Hne]; cbn [fst snd].
  - intros Hi. rewrite Hi. unfold identity_indexer.
    rewrite list_lookup_fmap, lookup_seq_lt; [done|].
    apply get_loc_Some in Hi. by eapply lookup_lt_Some.
  - intros Hi%get_loc_Some. by rewrite list_lookup_fmap, Hi.
Qed.

Lemma index_join_present_r (a b : list label) (x : label) (i : nat) :
  get_loc (fst (fst (index_join a b))) x = Some i ->
  snd (index_join a b) !! i = Some (get_loc b x).
Proof.
  unfold index_join. destruct (decide (a = b)) as [->|Hne]; cbn [fst snd].
  - intros Hi. rewrite Hi. unfold identity_indexer.
    rewrite list_lookup_fmap, lookup_seq_lt; [done|].
    apply get_loc_Some in Hi. by eapply lookup_lt_Some.
  - intros Hi%get_loc_Some. by rewrite list_lookup_fmap, Hi.
Qed.

Lemma take_rows_present (rix cix : list (option nat)) (a : ndarray) i k i' k' x :
  rix !! i = Some (Some i') -> cix !! k = Some (Some k') ->
  cell a i' k' = Some x ->
  cell (take_rows rix cix a) i k = Some x.
Proof.
  intros Hi Hk Hx. unfold cell, take_rows, take_cells in *.
  rewrite list_lookup_fmap, Hi. simpl.
  rewrite list_lookup_fmap, Hk. simpl.
  destruct (a !! i') as [row|]; [|done]. simpl in *. by rewrite Hx.
Qed.

(** The product is taken label by label: a cell both operands have, each
    under the same row label and column name, is multiplied with its
    namesake wherever the two sit in their tables. *)
Lemma df_mul_loc (J L : DataFrame) (r c : label) (x y : float) :
  loc J r c = Some x -> loc L r c = Some y ->
  loc (df_mul J L) r c = Some (fmul x y).
Proof.
  unfold loc. intros HJ HL.
  destruct (get_loc (index J) r) as [iJ|] eqn:HiJ; [|done].
  destruct (get_loc (columns J) c) as [kJ|] eqn:HkJ; [|done].
  destruct (get_loc (index L) r) as [iL|] eqn:HiL; [|done].
  destruct (get_loc (columns L) c) as [kL|] eqn:HkL; [|done].
  cbn [mbind option_bind] in HJ, HL.
  assert (Hr : r ∈ fst (fst (index_join (index J) (index L)))).
  { apply elem_of_index_join. left. apply get_loc_Some in HiJ.
    by eapply list_elem_of_lookup_2. }
  assert (Hc : c ∈ fst (fst (index_join (columns J) (columns L)))).
  { apply elem_of_index_join. left. apply get_loc_Some in HkJ.
    by eapply list_elem_of_lookup_2. }
  apply get_loc_elem_of in Hr as [i Hi]. apply get_loc_elem_of in Hc as [k Hk].
  pose proof (index_join_present_l _ _ _ _ Hi) as Hli.
  pose proof (index_join_present_r _ _ _ _ Hi) as Hri.
  pose proof (index_join_present_l _ _ _ _ Hk) as Hlk.
  pose proof (index_join_present_r _ _ _ _ Hk) as Hrk.
  rewrite HiJ in Hli. rewrite HiL in Hri. rewrite HkJ in Hlk. rewrite HkL in Hrk.
  unfold df_mul.
  destruct (index_join (index J) (index L)) as [[idx lrix] rrix].
  destruct (index_join (columns J) (columns L)) as [[cls lcix] rcix].
  cbn [fst snd index columns to_numpy] in *. rewrite Hi, Hk.
  cbn [mbind option_bind]. unfold cell.
  apply elementwise_cell.
  - by apply (take_rows_present lrix lcix (to_numpy J) i k iJ kJ).
  - by apply (take_rows_present rrix rcix (to_numpy L) i k iL kL).
Qed.

Lemma df_div_loc (P : DataFrame) (e : float) (r c : label) (x : float) :
  loc P r c = Some x -> loc (df_div P e) r c = Some (fdiv x e).
Proof.
  unfold loc, df_div. cbn [index columns to_numpy].
  destruct (get_loc (index P) r) as [i|]; [|done].
  destruct (get_loc (columns P) c) as [k|]; [|done].
  cbn [mbind option_bind]. unfold cell. rewrite list_lookup_fmap.
  destruct (to_numpy P !! i) as [row|]; [|done]. simpl.
  rewrite list_lookup_fmap. by intros ->.
Qed.

Lemma update_nan (J L : DataFrame) :
  NaN ∈ concat (to_numpy (df_mul J L)) ->
  snd (update J L) = NaN /\
  Forall (Forall (fun c => c = NaN)) (to_numpy (fst (update J L))).
Proof.
  intros Hnan. unfold update, normalize, np_sum.
  cbn [fst snd]. rewrite (fsum_NaN _ Hnan). split; [done|].
  cbn [df_div to_numpy].
  apply Forall_fmap, Forall_forall. intros row _. simpl.
  apply Forall_fmap, Forall_forall. intros c _. simpl.
  apply fdiv_NaN_r.
Qed.

Lemma index_join_nonempty_l (a b : list label) :
  a <> [] -> (0 < length (fst (fst (index_join a b))))%nat.
Proof.
  intros Ha. destruct a as [|x a]; [done|].
  assert (Hx : x ∈ fst (fst (index_join (x :: a) b))).
  { apply elem_of_index_join. left. apply elem_of_cons. by left. }
  destruct (fst (fst (index_join (x :: a) b))); [by apply elem_of_nil in Hx|].
  simpl. lia.
Qed.

(** C6 (amended).  Multiplying tables whose axes differ raises nothing:
    the tables are matched label by label.  The posterior's axes carry
    the labels of both operands and no other; a cell both operands have
    under the same labels holds their product divided by the evidence,
    in whatever order the labels are listed; and as soon as some row
    label (or column name) belongs to only one of the two tables, the
    evidence returned is [NaN] and every cell of the posterior is [NaN]
    (the joint prior having at least one cell). *)
Theorem update_misaligned (J L : DataFrame) :
  let posterior := fst (update J L) in
  let evidence := snd (update J L) in
  (forall r, r ∈ index posterior <-> r ∈ index J \/ r ∈ index L) /\
  (forall c, c ∈ columns posterior <-> c ∈ columns J \/ c ∈ columns L) /\
  (forall r c x y, loc J r c = Some x -> loc L r c = Some y ->
                   loc posterior r c = Some (fdiv (fmul x y) evidence)) /\
  (index J <> [] -> columns J <> [] ->
   (exists r, ~ (r ∈ index J <-> r ∈ index L)) \/
   (exists c, ~ (c ∈ columns J <-> c ∈ columns L)) ->
   evidence = NaN /\
   Forall (Forall (fun c => c = NaN)) (to_numpy posterior)).
Proof.
  intros posterior evidence. subst posterior evidence.
  assert (Hidx : index (fst (update J L))
                 = fst (fst (index_join (index J) (index L)))).
  { unfold update, normalize, df_mul. cbn [fst df_div index].
    by destruct (index_join (index J) (index L)) as [[??]?],
                (index_join (columns J) (columns L)) as [[??]?]. }
  assert (Hcols : columns (fst (update J L))
                  = fst (fst (index_join (columns J) (columns L)))).
  { unfold update, normalize, df_mul. cbn [fst df_div columns].
    by destruct (index_join (index J) (index L)) as [[??]?],
                (index_join (columns J) (columns L)) as [[??]?]. }
  split; [|split; [|split]].
  - intros r. rewrite Hidx. apply elem_of_index_join.
  - intros c. rewrite Hcols. apply elem_of_index_join.
  - intros r c x y Hx Hy. unfold update, normalize. cbn [fst snd].
    apply df_div_loc. by apply df_mul_loc.
  - intros Hrows Hcls Hdiff. apply update_nan.
    pose proof (index_join_nonempty_l _ (index L) Hrows) as Hi0.
    pose proof (index_join_nonempty_l _ (columns L) Hcls) as Hk0.
    destruct Hdiff as [[r Hr]|[c Hc]].
    + assert (Hin : r ∈ fst (fst (index_join (index J) (index L)))).
      { apply elem_of_index_join.
        destruct (decide (r ∈ index J)); [by left|].
        destruct (decide (r ∈ index L)); [by right|]. tauto. }
      apply list_elem_of_lookup in Hin as [i Hi].
      apply (cell_elem_of_concat _ i 0). apply df_mul_cell_nan; [|done|].
      { by eapply lookup_lt_Some. }
      destruct (decide (r ∈ index J)) as [HrJ|HrJ].
      * right; left. eapply index_join_missing_r; [done|]. tauto.
      * left. by eapply index_join_missing_l.
    + assert (Hin : c ∈ fst (fst (index_join (columns J) (columns L)))).
      { apply elem_of_index_join.
        destruct (decide (c ∈ columns J)); [by left|].
        destruct (decide (c ∈ columns L)); [by right|]. tauto. }
      apply list_elem_of_lookup in Hin as [k Hk].
      apply (cell_elem_of_concat _ 0 k). apply df_mul_cell_nan; [done| |].
      { by eapply lookup_lt_Some. }
      destruct (decide (c ∈ columns J)) as [HcJ|HcJ].
      * right; right; right. eapply index_join_missing_r; [done|]. tauto.
      * right; right; left. by eapply index_join_missing_l.
Qed.

Lemma update_misaligned_witness :
  let lik := constant_frame half_steps half_steps (Fin 1) in
  (snd (update joint22 lik) = NaN /\
   Forall (Forall (fun c => c = NaN)) (to_numpy (fst (update joint22 lik)))) /\
  loc (fst (update joint22 like22_reordered)) (Qc_of_Z 1) (Qc_of_Z 2)
  = Some (Fin 1).
Proof.
  intros lik. split.
  - destruct (update_misaligned joint22 lik) as (_ & _ & _ & Hnan).
    apply Hnan; [compute_done | compute_done |].
    left. exists (frac 3 2). compute_done.
  - destruct (update_misaligned joint22 like22_reordered) as (_ & _ & Hloc & _).
    rewrite (Hloc (Qc_of_Z 1) (Qc_of_Z 2) (Fin (frac 1 4)) (Fin 1));
      compute_done.
Defined.

(** C6 (as claimed, refuted).  A likelihood evaluated on the grid
    1, 1.5, 2 is multiplied with a joint table on the grid 1, 2: no
    exception is raised, and a posterior on the three labels comes back,
    all [NaN], with evidence [NaN].  A likelihood whose rows are listed
    in another order is matched to the joint table label by label and
    gives the same posterior as the aligned one. *)
Lemma update_misaligned_returns_posterior :
  (lik <<- likelihood_of taller half_steps half_steps ;;
   Ok (bool_decide (index lik = index joint22), update joint22 lik))
  = Ok (false, (constant_frame half_steps half_steps NaN, NaN)) /\
  index like22_reordered <> index joint22 /\
  update joint22 like22_reordered = update joint22 like22 /\
  update joint22 like22
  = (frame [1; 2]%Z [1; 2]%Z [[fz 0; fz 1]; [fz 0; fz 0]], Fin (frac 1 4)).
Proof. repeat split; compute_done. Qed.

(** ** Objects: which statements create a table, which overwrite one *)

Lemma new_fresh (df : DataFrame) (h : list DataFrame) :
  h !! fst (new df h) = None /\
  snd (new df h) !! fst (new df h) = Some df /\
  (forall r' df', h !! r' = Some df' -> snd (new df h) !! r' = Some df').
Proof.
  unfold new. cbn [fst snd]. split; [|split].
  - by apply lookup_ge_None.
  - rewrite lookup_app_r by done. by rewrite Nat.sub_diag.
  - intros r' df' Hr'. by apply lookup_app_l_Some.
Qed.

Lemma normalize_obj_spec (joint : nat) (J : DataFrame) (h : list DataFrame) :
  h !! joint = Some J ->
  fst (normalize_obj joint h) = snd (normalize J) /\
  length (snd (normalize_obj joint h)) = length h /\
  snd (normalize_obj joint h) !! joint = Some (fst (normalize J)) /\
  (forall r', r' <> joint -> snd (normalize_obj joint h) !! r' = h !! r').
Proof.
  intros HJ. unfold normalize_obj.
  rewrite (list_lookup_total_correct h joint J HJ).
  destruct (normalize J) as [contents prob_data]. cbn [fst snd].
  split; [done|]. split; [apply length_insert|]. split.
  - apply list_lookup_insert_eq. by eapply lookup_lt_Some.
  - intros r' Hr'. by apply list_lookup_insert_ne.
Qed.

Lemma update_obj_spec (joint lik : nat) (J L : DataFrame) (h : list DataFrame) :
  h !! joint = Some J -> h !! lik = Some L ->
  update_obj joint lik h
  = ((length h, snd (update J L)), h ++ [fst (update J L)]).
Proof.
  intros HJ HL. unfold update_obj, mul_obj, new.
  rewrite (list_lookup_total_correct h joint J HJ).
  rewrite (list_lookup_total_correct h lik L HL).
  unfold normalize_obj.
  rewrite list_lookup_total_middle by done.
  unfold update. destruct (normalize (df_mul J L)) as [contents prob_data].
  cbn [fst snd]. f_equal.
  rewrite <- (Nat.add_0_r (length h)).
  by rewrite insert_app_r.
Qed.

(** C9 (amended).  [make_joint], the product [joint * likelihood] and
    the update as a whole return a table object that did not exist before
    and leave every existing table as it was.  [normalize] creates no
    table: it overwrites the object it is passed with the normalized
    cells, which every reference to that object then sees, and leaves
    all other objects as they were. *)
Theorem normalize_in_place_others_fresh (h : list DataFrame) :
  (forall pmf1 pmf2, exists r h',
      make_joint_obj pmf1 pmf2 h = Ok (r, h') /\
      h !! r = None /\ is_Some (h' !! r) /\
      (forall r' df, h !! r' = Some df -> h' !! r' = Some df)) /\
  (forall joint lik,
      h !! fst (mul_obj joint lik h) = None /\
      is_Some (snd (mul_obj joint lik h) !! fst (mul_obj joint lik h)) /\
      (forall r' df, h !! r' = Some df ->
                     snd (mul_obj joint lik h) !! r' = Some df)) /\
  (forall joint lik J L,
      h !! joint = Some J -> h !! lik = Some L ->
      let '((posterior, evidence), h') := update_obj joint lik h in
      h !! posterior = None /\
      h' !! posterior = Some (fst (update J L)) /\
      evidence = snd (update J L) /\
      (forall r' df, h !! r' = Some df -> h' !! r' = Some df)) /\
  (forall joint J,
      h !! joint = Some J ->
      let '(prob_data, h') := normalize_obj joint h in
      prob_data = np_sum (to_numpy J) /\
      length h' = length h /\
      h' !! joint = Some (df_div J (np_sum (to_numpy J))) /\
      (forall r', r' <> joint -> h' !! r' = h !! r')).
Proof.
  split; [|split; [|split]].
  - intros pmf1 pmf2. unfold make_joint_obj. rewrite make_joint_Ok. simpl.
    eexists _, _. split; [done|].
    match goal with |- context [h ++ [?df]] =>
      destruct (new_fresh df h) as (Hnone & Hsome & Hframe) end.
    unfold new in *. cbn [fst snd] in *. by rewrite Hsome.
  - intros joint lik. unfold mul_obj.
    destruct (new_fresh (df_mul (h !!! joint) (h !!! lik)) h)
      as (Hnone & Hsome & Hframe).
    by rewrite Hsome.
  - intros joint lik J L HJ HL. rewrite (update_obj_spec joint lik J L h HJ HL).
    destruct (new_fresh (fst (update J L)) h) as (Hnone & Hsome & Hframe).
    unfold new in *. cbn [fst snd] in *. done.
  - intros joint J HJ.
    destruct (normalize_obj_spec joint J h HJ) as (Hret & Hlen & Hcell & Hframe).
    destruct (normalize_obj joint h) as [prob_data h']. cbn [fst snd] in *.
    done.
Qed.

Lemma normalize_in_place_others_fresh_witness :
  let h := [joint22; ones22] in
  snd (normalize_obj 1 h) !! 1%nat
  = Some (constant_frame (index ones22) (columns ones22) (Fin (frac 1 4))) /\
  snd (normalize_obj 1 h) !! 0%nat = Some joint22 /\
  snd (update_obj 0 1 h) !! 0%nat = Some joint22 /\
  snd (update_obj 0 1 h) !! 1%nat = Some ones22.
Proof.
  intros h.
  destruct (normalize_in_place_others_fresh h) as (_ & _ & Hupd & Hnorm).
  specialize (Hnorm 1%nat ones22 ltac:(compute_done)).
  specialize (Hupd 0%nat 1%nat joint22 ones22
                ltac:(compute_done) ltac:(compute_done)).
  destruct (normalize_obj 1 h) as [prob_data h1].
  destruct (update_obj 0 1 h) as [[posterior evidence] h2].
  destruct Hnorm as (_ & _ & Hcell & Hframe).
  destruct Hupd as (_ & _ & _ & Hkept).
  cbn [snd]. split; [rewrite Hcell; compute_done|].
  split; [by rewrite Hframe|].
  split; by apply Hkept.
Defined.

(** C9 (as claimed, refuted).  [posterior] and a second name refer to
    the same table, whose cells are all 1.  After [normalize(posterior)]
    the object both names refer to holds 1/4 in every cell: no new table
    was made, and the table that was passed in has changed. *)
Lemma normalize_mutates_its_argument :
  let h := [ones22] in
  let posterior := 0%nat in
  let alias := posterior in
  h !! alias = Some ones22 /\
  normalize_obj posterior h
  = (fz 4, [constant_frame (index ones22) (columns ones22) (Fin (frac 1 4))]) /\
  snd (normalize_obj posterior h) !! alias <> h !! alias.
Proof. repeat split; compute_done. Qed.

(** ** Signs *)

Lemma positive_weight_fpos x : positive_weight x = true <-> fpos x.
Proof.
  destruct x as [q| | |]; simpl; try (split; [discriminate|tauto]).
  unfold Qc_gtb. rewrite (Qcgt_alt q 0).
  destruct (q ?= 0); split; congruence.
Qed.

Lemma fpos_nonneg x : fpos x -> fnonneg x.
Proof. destruct x; simpl; try done. apply Qclt_le_weak. Qed.

Lemma fnonneg_finite x : fnonneg x -> is_finite x = true.
Proof. by destruct x. Qed.

Lemma fpos_nonzero x : fpos x -> x <> Fin 0.
Proof.
  destruct x as [q| | |]; simpl; try done.
  intros Hq [= ->]. by apply Qclt_not_eq in Hq.
Qed.

Lemma Qc_zerob_pos (q : Qc) : 0 < q -> Qc_zerob q = false.
Proof. intros Hq. apply Qc_zerob_false. intros ->. by apply Qclt_not_eq in Hq. Qed.

Lemma fmul_pos x y : fpos x -> fpos y -> fpos (fmul x y).
Proof. destruct x, y; simpl; try done. apply Qcmult_pos_pos. Qed.

Lemma fmul_nonneg x y : fnonneg x -> fnonneg y -> fnonneg (fmul x y).
Proof. destruct x, y; simpl; try done. apply Qcmult_nonneg_nonneg. Qed.

Lemma fdiv_pos x e : fpos x -> fpos e -> fpos (fdiv x e).
Proof.
  destruct x as [a| | |], e as [b| | |]; simpl; try done. intros Ha Hb.
  rewrite (Qc_zerob_pos b Hb). simpl.
  apply Qcmult_pos_pos; [done | by apply Qcinv_pos].
Qed.

Lemma fdiv_nonneg x e : fnonneg x -> fpos e -> fnonneg (fdiv x e).
Proof.
  destruct x as [a| | |], e as [b| | |]; simpl; try done. intros Ha Hb.
  rewrite (Qc_zerob_pos b Hb). simpl.
  apply Qcmult_nonneg_nonneg; [done | by apply Qclt_le_weak, Qcinv_pos].
Qed.

Lemma fdiv_zero_l e : fpos e -> fdiv (Fin 0) e = Fin 0.
Proof.
  destruct e as [b| | |]; simpl; try done. intros Hb.
  rewrite (Qc_zerob_pos b Hb). f_equal. unfold Qcdiv. apply Qcmult_0_l.
Qed.

Lemma fsum_nonneg l : Forall fnonneg l -> fnonneg (fsum l).
Proof.
  induction 1 as [|x l Hx _ IH]; [done|].
  rewrite fsum_cons. destruct x, (fsum l); simpl in *; try done.
  by apply Qcplus_nonneg_nonneg.
Qed.

Lemma fsum_pos l : Forall fnonneg l -> Exists fpos l -> fpos (fsum l).
Proof.
  intros Hall Hex. induction Hall as [|x l Hx Hl IH]; [by inv Hex|].
  rewrite fsum_cons. pose proof (fsum_nonneg l Hl) as Hs.
  apply Exists_cons in Hex as [Hpos|Hex].
  - destruct x, (fsum l); simpl in *; try done. by apply Qcplus_pos_nonneg.
  - specialize (IH Hex).
    destruct x, (fsum l); simpl in *; try done. by apply Qcplus_nonneg_pos.
Qed.

Lemma taller_gt (x y : label) : y < x -> taller x y = Fin 1.
Proof. intros H. unfold taller, Qc_gtb. apply Qcgt_alt in H. by rewrite H. Qed.

Lemma taller_not_gt (x y : label) : ~ y < x -> taller x y = Fin 0.
Proof.
  intros H. unfold taller, Qc_gtb.
  destruct (x ?= y) eqn:E; try done. destruct H. by apply Qcgt_alt.
Qed.

Lemma taller_cell_nonneg (x y : label * float) :
  fpos (snd x) -> fpos (snd y) -> fnonneg (taller_cell x y).
Proof.
  intros Hx Hy. unfold taller_cell.
  apply fmul_nonneg; [by apply fpos_nonneg, fmul_pos|].
  unfold taller. by destruct (Qc_gtb _ _).
Qed.

Lemma taller_cell_pos (x y : label * float) :
  fpos (snd x) -> fpos (snd y) -> fst y < fst x -> fpos (taller_cell x y).
Proof.
  intros Hx Hy Hlt. unfold taller_cell. rewrite (taller_gt _ _ Hlt).
  rewrite fmul_1_r. by apply fmul_pos.
Qed.

Lemma taller_cell_zero (x y : label * float) :
  fpos (snd x) -> fpos (snd y) -> ~ fst y < fst x -> taller_cell x y = Fin 0.
Proof.
  intros Hx Hy Hlt. unfold taller_cell. rewrite (taller_not_gt _ _ Hlt).
  pose proof (fmul_pos _ _ Hx Hy) as Hxy.
  destruct (fmul (snd x) (snd y)); simpl in *; try done.
  by rewrite Qcmult_0_r.
Qed.

(** ** The posterior of the height example in closed form *)

Lemma outer_shape {A} (f : A -> A -> float) (x y : list A) (n m : nat) :
  length y = n -> length x = m ->
  shape_ok (fmap (fun yi => fmap (fun xj => f xj yi) x) y) n m = true.
Proof.
  intros <- <-. rewrite <- elementwise_meshgrid. apply meshgrid_shape.
Qed.

Lemma taller_product (prior : Pmf) :
  elementwise fmul
    (fmap (fun wy => fmap (fun wx => fmul wx wy) (ps prior)) (ps prior))
    (fmap (fun yi => fmap (fun xj => taller xj yi) (qs prior)) (qs prior))
  = fmap (fun y => fmap (fun x => taller_cell x y) prior) prior.
Proof.
  unfold elementwise, ps, qs.
  rewrite <- !list_fmap_compose, zip_with_fmap_l, zip_with_fmap_r, zip_with_diag.
  apply list_fmap_ext. intros _ y _. simpl.
  rewrite <- !list_fmap_compose, zip_with_fmap_l, zip_with_fmap_r, zip_with_diag.
  by apply list_fmap_ext.
Qed.

Lemma taller_update (prior : Pmf) :
  let product := fmap (fun y => fmap (fun x => taller_cell x y) prior) prior in
  exists joint lik,
    make_joint prior prior = Ok joint /\
    likelihood joint = Ok lik /\
    update joint lik =
      ({| index := qs prior; columns := qs prior;
          to_numpy := fmap (fun row : list float =>
                              fmap (fun c => fdiv c (np_sum product)) row)
                           product |},
       np_sum product).
Proof.
  intros product. eexists _, _. split; [apply make_joint_Ok|]. split.
  - rewrite likelihood_likelihood_of, likelihood_of_shape.
    cbn [index columns]. by rewrite Nat.eqb_refl.
  - rewrite update_aligned; try done.
    + cbn [index columns to_numpy]. by rewrite taller_product.
    + unfold wf. cbn [index columns to_numpy].
      apply outer_shape; by rewrite qs_length.
    + unfold wf. cbn [index columns to_numpy]. by apply outer_shape.
Qed.

Section TallerPosterior.

Variable prior : list (label * float).
Hypothesis prior_pos : Forall (fun y => fpos (snd y)) prior.

Let product : list (list float) :=
  fmap (fun y => fmap (fun x => taller_cell x y) prior) prior.

Let posterior : DataFrame :=
  {| index := qs prior; columns := qs prior;
     to_numpy := fmap (fun row : list float =>
                         fmap (fun c => fdiv c (np_sum product)) row)
                      product |}.

Lemma taller_evidence_pos (x y : label * float) :
  x ∈ prior -> y ∈ prior -> fst y < fst x -> fpos (np_sum product).
Proof using prior_pos.
  intros Hx Hy Hlt. unfold np_sum. rewrite Forall_forall in prior_pos.
  apply fsum_pos.
  - apply Forall_forall. intros c Hc.
    apply list_elem_of_In, in_concat in Hc as (row & Hrow & Hc).
    apply list_elem_of_In, list_elem_of_fmap in Hrow as (y' & -> & Hy').
    apply list_elem_of_In, list_elem_of_fmap in Hc as (x' & -> & Hx').
    apply taller_cell_nonneg; by apply prior_pos.
  - apply Exists_exists. exists (taller_cell x y). split.
    + apply list_elem_of_In, in_concat.
      exists (fmap (fun x => taller_cell x y) prior).
      split; apply list_elem_of_In, list_elem_of_fmap; eauto.
    + apply taller_cell_pos; auto.
Qed.

Lemma taller_posterior_column (j : nat) (x : label * float) :
  prior !! j = Some x ->
  column (to_numpy posterior) j
  = fmap (fun y => fdiv (taller_cell x y) (np_sum product)) prior.
Proof.
  intros Hj. unfold column, posterior, product. cbn [to_numpy].
  rewrite <- !list_fmap_compose. apply list_fmap_ext. intros _ y _. simpl.
  by rewrite !list_lookup_fmap, Hj.
Qed.

Lemma taller_conditional_missing (v : label) :
  v ∉ qs prior -> conditional posterior v = Raise KeyError.
Proof.
  intros Hv. unfold conditional, getitem. cbn [columns posterior].
  by rewrite (get_loc_None _ _ Hv).
Qed.

Lemma taller_conditional (key y0 : label) :
  key ∈ qs prior -> y0 ∈ qs prior -> y0 < key ->
  exists cond,
    conditional posterior key = Ok cond /\
    qs cond = qs prior /\
    Pmf_sum cond = Fin 1 /\
    (forall y p, (y, p) ∈ cond -> p <> Fin 0 -> y < key).
Proof using prior_pos.
  intros Hkey Hy0 Hlt.
  assert (Hpos := prior_pos). rewrite Forall_forall in Hpos.
  (* the column named [key] and the prior entries of [key] and [y0] *)
  destruct (list_find_elem_of (fun x => x = key) (qs prior) key Hkey eq_refl)
    as [[j k] Hfind].
  assert (Hloc : get_loc (qs prior) key = Some j).
  { unfold get_loc. by rewrite Hfind. }
  pose proof (get_loc_Some _ _ _ Hloc) as Hj.
  apply list_lookup_fmap_Some in Hj as (x0 & Hx0key & Hx0).
  apply list_elem_of_fmap in Hy0 as (yy & -> & Hyy).
  assert (Hx0in : x0 ∈ prior) by (by eapply list_elem_of_lookup_2).
  assert (Hev : fpos (np_sum product)).
  { apply (taller_evidence_pos x0 yy); try done. by rewrite <- Hx0key. }
  (* the weights of the column *)
  set (g := fun y => fdiv (taller_cell x0 y) (np_sum product)).
  assert (Hg_nonneg : Forall fnonneg (fmap g prior)).
  { apply Forall_fmap, Forall_forall. intros y Hy. simpl.
    apply fdiv_nonneg; [|done]. apply taller_cell_nonneg; by apply Hpos. }
  assert (Hg_fin : all_finite (fmap g prior) = true).
  { apply all_finite_Forall. eapply Forall_impl; [exact Hg_nonneg|].
    apply fnonneg_finite. }
  assert (Htotal : fpos (fsum (fmap g prior))).
  { apply fsum_pos; [done|]. apply Exists_exists. exists (g yy). split.
    - apply list_elem_of_fmap. eauto.
    - apply fdiv_pos; [|done]. apply taller_cell_pos; auto.
      by rewrite <- Hx0key. }
  (* the conditional distribution *)
  exists (fmap (fun y => (fst y, fdiv (g y) (fsum (fmap g prior)))) prior).
  split; [|split; [|split]].
  - unfold conditional, getitem. cbn [columns index posterior].
    rewrite Hloc. cbn [rbind]. f_equal.
    rewrite (taller_posterior_column j x0 Hx0). fold g.
    unfold Pmf_normalize, ps, qs. cbn [fst].
    rewrite snd_zip by (by rewrite !length_fmap).
    rewrite nansum_finite by done.
    rewrite zip_with_fmap_l, zip_with_fmap_r, zip_with_diag.
    rewrite <- list_fmap_compose. by apply list_fmap_ext.
  - unfold qs. rewrite <- list_fmap_compose. by apply list_fmap_ext.
  - unfold Pmf_sum, ps. rewrite <- list_fmap_compose.
    change (snd ∘ (fun y : Qc * float =>
                     (fst y, fdiv (g y) (fsum (fmap g prior)))))
      with ((fun c => fdiv c (fsum (fmap g prior))) ∘ g).
    rewrite list_fmap_compose.
    rewrite nansum_finite.
    + apply fsum_fdiv_total; [done | by apply fpos_nonzero].
    + apply all_finite_Forall, Forall_fmap.
      eapply Forall_impl; [exact Hg_nonneg|]. intros c Hc. simpl.
      apply fnonneg_finite. by apply fdiv_nonneg.
  - intros y p [yv [[= -> ->] Hyv]]%list_elem_of_fmap Hp.
    destruct (Qclt_le_dec (fst yv) key) as [Hlt'|Hge]; [done|].
    destruct Hp. unfold g.
    rewrite (taller_cell_zero x0 yv); try (by apply Hpos).
    + by rewrite !fdiv_zero_l.
    + rewrite <- Hx0key. by apply Qcle_not_lt.
Qed.

End TallerPosterior.

(** ** The height example *)

Lemma Pmf_normalize_pos (pmf : Pmf) :
  Forall (fun y => fpos (snd y)) pmf ->
  Forall (fun y => fpos (snd y)) (fst (Pmf_normalize pmf)) /\
  qs (fst (Pmf_normalize pmf)) = qs pmf.
Proof.
  intros Hpos. unfold Pmf_normalize. cbn [fst]. split.
  - assert (Hnn : Forall fnonneg (ps pmf)).
    { apply Forall_fmap. eapply Forall_impl; [exact Hpos|].
      intros y Hy. by apply fpos_nonneg. }
    assert (Hfin : all_finite (ps pmf) = true).
    { apply all_finite_Forall. eapply Forall_impl; [exact Hnn|].
      apply fnonneg_finite. }
    rewrite nansum_finite by done.
    destruct pmf as [|y0 pmf]; [constructor|].
    assert (Htotal : fpos (fsum (ps (y0 :: pmf)))).
    { apply fsum_pos; [done|]. apply Exists_cons_hd.
      by apply Forall_cons in Hpos as [? _]. }
    apply Forall_fmap. eapply Forall_impl; [exact Hpos|].
    intros [q p] Hp. simpl in *. by apply fdiv_pos.
  - unfold qs. rewrite <- list_fmap_compose. apply list_fmap_ext.
    by intros _ [q p] _.
Qed.

(** C7.  On the height example (quantities 154, 154.5, ..., 201.5; any
    positive finite densities as prior; likelihood 1 where x > y), looking
    up a column of the posterior under a value that is not a quantity of
    the grid raises [KeyError], and the column of 180, made a [Pmf] and
    normalized, is a distribution over the grid whose weights sum to 1 and
    vanish at every height that is not below 180. *)
Theorem height_conditional (ps0 : list float) :
  length ps0 = length height_qs ->
  forallb positive_weight ps0 = true ->
  exists posterior,
    height_posterior ps0 = Ok posterior /\
    columns posterior = height_qs /\
    (forall v, v ∉ height_qs -> conditional posterior v = Raise KeyError) /\
    (exists cond,
        conditional posterior (Qc_of_Z 180) = Ok cond /\
        qs cond = height_qs /\
        Pmf_sum cond = Fin 1 /\
        (forall y p, (y, p) ∈ cond -> p <> Fin 0 -> y < Qc_of_Z 180)).
Proof.
  intros Hlen Hpos. unfold height_posterior, Pmf_new.
  rewrite Hlen, Nat.eqb_refl. cbn [rbind].
  set (prior := fst (Pmf_normalize (zip height_qs ps0))).
  assert (Hprior : Forall (fun y => fpos (snd y)) prior /\ qs prior = height_qs).
  { destruct (Pmf_normalize_pos (zip height_qs ps0)) as [H1 H2].
    - apply Forall_forall. intros [q p] Hqp%elem_of_zip_r. simpl.
      apply positive_weight_fpos.
      rewrite forallb_forall in Hpos. by apply Hpos, list_elem_of_In.
    - split; [exact H1|]. fold prior in H2. rewrite H2.
      unfold qs. apply fst_zip. lia. }
  destruct Hprior as [Hpp Hq].
  destruct (taller_update prior) as (joint & lik & Hj & Hl & Hu).
  rewrite Hj. cbn [rbind]. rewrite Hl. cbn [rbind]. rewrite Hu. cbn [fst].
  eexists. split; [done|]. split; [exact Hq|]. split.
  - intros v Hv. apply taller_conditional_missing. by rewrite Hq.
  - rewrite <- Hq.
    apply (taller_conditional prior Hpp (Qc_of_Z 180) (Qc_of_Z 154));
      rewrite ?Hq; compute_done.
Qed.

Lemma height_conditional_witness :
  exists posterior cond,
    height_posterior flat_ps = Ok posterior /\
    conditional posterior (frac 721 4) = Raise KeyError /\
    conditional posterior (Qc_of_Z 180) = Ok cond /\
    Pmf_sum cond = Fin 1.
Proof.
  destruct (height_conditional flat_ps ltac:(compute_done) ltac:(compute_done))
    as (posterior & Hpost & _ & Hmiss & cond & Hcond & _ & Hsum & _).
  exists posterior, cond. split; [exact Hpost|].
  split; [|by split]. apply Hmiss. compute_done.
Defined.

(** * Further properties of the notebook's code *)

(** ** Outer operations *)

(** X1.  An outer operation always yields a table: for any two
    sequences [x] and [y] and any operation, the frame is built without
    an exception, its column names are [x], its row labels are [y], it
    has one row per element of [y] and one cell per element of [x] in
    each row, and the cell in the row of [y_i] and the column of [x_j]
    is the operation applied to [x_j] and [y_i]. *)
Theorem outer_frame_cells (op : label -> label -> float) (x y : list label) :
  exists df,
    outer_frame op x y = Ok df /\
    columns df = x /\ index df = y /\ wf df /\
    (forall i j xj yi,
        x !! j = Some xj -> y !! i = Some yi ->
        cell (to_numpy df) i j = Some (op xj yi)) /\
    (forall i j, (length y <= i)%nat \/ (length x <= j)%nat ->
                 cell (to_numpy df) i j = None).
Proof.
  unfold outer_frame, pd_DataFrame.
  pose proof (meshgrid_shape op x y) as Hshape.
  pose proof (elementwise_meshgrid op x y) as Hcells.
  destruct (meshgrid x y) as [X Y]. cbn [fst snd] in *.
  rewrite Hshape. eexists. split; [done|]. cbn [index columns to_numpy].
  split; [done|]. split; [done|]. split; [exact Hshape|].
  rewrite Hcells. unfold cell. split.
  - intros i j xj yi Hj Hi. rewrite list_lookup_fmap, Hi. simpl.
    by rewrite list_lookup_fmap, Hj.
  - intros i j [Hi|Hj]; rewrite list_lookup_fmap.
    + by rewrite (proj2 (lookup_ge_None y i) Hi).
    + destruct (y !! i); [|done]. simpl. rewrite list_lookup_fmap.
      by rewrite (proj2 (lookup_ge_None x j) Hj).
Qed.

(** ** The likelihood statement as written *)

Lemma get_loc_None_iff (ax : list label) (k : label) :
  get_loc ax k = None <-> k ∉ ax.
Proof.
  split; [|apply get_loc_None].
  intros Hnone Hin. apply get_loc_elem_of in Hin as [i Hi]. congruence.
Qed.

(** X2.  The likelihood of the notebook is built exactly when the joint
    table has as many rows as columns, and raises [ValueError] otherwise.
    When it is built, its rows are labelled with the joint's column names
    and its columns with the joint's row labels, every cell is 0 or 1,
    and the cell at position (i, j) is 1 exactly when the j-th column
    name of the joint exceeds its i-th row label; so when the joint's two
    axes are the same list, the likelihood has the joint's axes. *)
Theorem likelihood_square (joint : DataFrame) :
  (length (index joint) <> length (columns joint) ->
   likelihood joint = Raise ValueError) /\
  (length (index joint) = length (columns joint) ->
   exists lik,
     likelihood joint = Ok lik /\ wf lik /\
     index lik = columns joint /\ columns lik = index joint /\
     (forall i j xj yi,
         columns joint !! j = Some xj -> index joint !! i = Some yi ->
         cell (to_numpy lik) i j = Some (if Qc_gtb xj yi then Fin 1 else Fin 0)) /\
     (index joint = columns joint ->
      index lik = index joint /\ columns lik = columns joint)).
Proof.
  rewrite likelihood_likelihood_of, likelihood_of_shape. split.
  - intros Hne. by rewrite (proj2 (Nat.eqb_neq _ _) Hne).
  - intros Heq. rewrite Heq, Nat.eqb_refl. eexists. split; [done|].
    cbn [index columns to_numpy]. split; [|split; [done|split; [done|split]]].
    + unfold wf. cbn [index columns to_numpy]. by apply outer_shape.
    + intros i j xj yi Hj Hi. unfold cell.
      rewrite list_lookup_fmap, Hi. simpl.
      by rewrite list_lookup_fmap, Hj.
    + by intros ->.
Qed.

Lemma likelihood_square_witness :
  likelihood (constant_frame x135 y24 (Fin 1)) = Raise ValueError /\
  exists lik, likelihood joint22 = Ok lik /\ index lik = index joint22.
Proof.
  destruct (likelihood_square (constant_frame x135 y24 (Fin 1))) as [Hne _].
  destruct (likelihood_square joint22) as [_ Heq].
  split; [apply Hne; compute_done|].
  destruct Heq as (lik & Hlik & _ & _ & _ & _ & Hsame); [compute_done|].
  exists lik. split; [exact Hlik|]. apply Hsame. compute_done.
Defined.

(** ** The posterior of "A is taller than B" *)

Lemma taller_product_finite (prior : Pmf) :
  Forall (fun y => fpos (snd y)) prior ->
  finite_array (fmap (fun y => fmap (fun x => taller_cell x y) prior) prior)
  = true.
Proof.
  intros Hpos. rewrite Forall_forall in Hpos.
  apply finite_array_Forall, Forall_fmap, Forall_forall. intros y Hy. simpl.
  apply all_finite_Forall, Forall_fmap, Forall_forall. intros x Hx. simpl.
  apply fnonneg_finite, taller_cell_nonneg; by apply Hpos.
Qed.

(** X3.  For a prior with positive finite weights that has two
    quantities, one below the other, the update with the likelihood of
    "A is taller than B" has positive evidence and a posterior that sums
    to 1; every pair in which A (the column) is not taller than B (the
    row) has posterior 0, and every other pair keeps the product of its
    two prior weights, divided by the evidence. *)
Theorem taller_posterior_cells (prior : Pmf) (x0 y0 : label * float) :
  Forall (fun y => fpos (snd y)) prior ->
  x0 ∈ prior -> y0 ∈ prior -> fst y0 < fst x0 ->
  exists joint lik,
    make_joint prior prior = Ok joint /\
    likelihood joint = Ok lik /\
    let posterior := fst (update joint lik) in
    let evidence := snd (update joint lik) in
    fpos evidence /\
    np_sum (to_numpy posterior) = Fin 1 /\
    (forall i j x y,
        prior !! j = Some x -> prior !! i = Some y ->
        cell (to_numpy posterior) i j
        = Some (if Qc_gtb (fst x) (fst y)
                then fdiv (fmul (snd x) (snd y)) evidence
                else Fin 0)).
Proof.
  intros Hpos Hx0 Hy0 Hlt.
  destruct (taller_update prior) as (joint & lik & Hj & Hl & Hu).
  exists joint, lik. split; [exact Hj|]. split; [exact Hl|].
  rewrite Hu. cbn [fst snd to_numpy].
  pose proof (taller_evidence_pos prior Hpos x0 y0 Hx0 Hy0 Hlt) as Hev.
  split; [exact Hev|]. split.
  - apply np_sum_df_div_total; [by apply taller_product_finite|].
    by apply fpos_nonzero.
  - intros i j x y Hj' Hi'. unfold cell.
    rewrite !list_lookup_fmap, Hi'. simpl.
    rewrite !list_lookup_fmap, Hj'. simpl. f_equal.
    rewrite Forall_forall in Hpos.
    assert (Hpx : fpos (snd x)) by (by eapply Hpos, list_elem_of_lookup_2).
    assert (Hpy : fpos (snd y)) by (by eapply Hpos, list_elem_of_lookup_2).
    unfold taller_cell, taller. destruct (Qc_gtb (fst x) (fst y)).
    + by rewrite fmul_1_r.
    + pose proof (fmul_pos _ _ Hpx Hpy) as Hxy.
      destruct (fmul (snd x) (snd y)) as [q| | |]; simpl in Hxy; try done.
      cbn [fmul]. rewrite Qcmult_0_r. by apply fdiv_zero_l.
Qed.

Lemma taller_posterior_cells_witness :
  exists joint lik,
    make_joint pmf123 pmf123 = Ok joint /\
    likelihood joint = Ok lik /\
    np_sum (to_numpy (fst (update joint lik))) = Fin 1 /\
    cell (to_numpy (fst (update joint lik))) 1 1 = Some (Fin 0).
Proof.
  assert (Hpos : Forall (fun y : Qc * float => fpos (snd y)) pmf123)
    by (repeat constructor).
  destruct (taller_posterior_cells pmf123
              (Qc_of_Z 2, Fin (frac 3 10)) (Qc_of_Z 1, Fin (frac 1 5))
              Hpos ltac:(compute_done) ltac:(compute_done) ltac:(compute_done))
    as (joint & lik & Hj & Hl & _ & Hsum & Hcell).
  exists joint, lik. split; [exact Hj|]. split; [exact Hl|].
  split; [exact Hsum|].
  by rewrite (Hcell 1%nat 1%nat (Qc_of_Z 2, Fin (frac 3 10))
                (Qc_of_Z 2, Fin (frac 3 10)) eq_refl eq_refl).
Defined.

(** ** Normalizing twice *)

Lemma normalize_normalized (J : DataFrame) :
  finite_array (to_numpy J) = true -> np_sum (to_numpy J) <> Fin 0 ->
  normalize (fst (normalize J)) = (fst (normalize J), Fin 1).
Proof.
  intros Hfin Hsum. unfold normalize. cbn [fst df_div to_numpy].
  rewrite (np_sum_df_div_total _ Hfin Hsum).
  unfold df_div. cbn [index columns to_numpy]. by rewrite df_div_one.
Qed.

(** X4.  [normalize] is idempotent on the table object: once a table
    with finite cells and a nonzero total has been normalized, a second
    [normalize] of the same object returns 1 and leaves every table of
    the store as it is. *)
Theorem normalize_obj_twice (h : list DataFrame) (joint : nat) (J : DataFrame) :
  h !! joint = Some J ->
  finite_array (to_numpy J) = true -> np_sum (to_numpy J) <> Fin 0 ->
  normalize_obj joint (snd (normalize_obj joint h))
  = (Fin 1, snd (normalize_obj joint h)).
Proof.
  intros HJ Hfin Hsum. unfold normalize_obj at 2 3.
  rewrite (list_lookup_total_correct h joint J HJ).
  pose proof (normalize_normalized J Hfin Hsum) as Hagain.
  destruct (normalize J) as [contents prob_data]. cbn [fst snd] in *.
  unfold normalize_obj.
  rewrite list_lookup_total_insert_eq by (by eapply lookup_lt_Some).
  rewrite Hagain. by rewrite list_insert_insert_eq.
Qed.

Lemma normalize_obj_twice_witness :
  let h := [joint22; ones22] in
  normalize_obj 1 (snd (normalize_obj 1 h)) = (Fin 1, snd (normalize_obj 1 h)).
Proof.
  intros h. apply (normalize_obj_twice h 1%nat ones22); compute_done.
Defined.

(** ** Columns, marginals and conditionals *)

Lemma getitem_Ok (df : DataFrame) (key : label) (col : Pmf) :
  getitem df key = Ok col ->
  exists j, get_loc (columns df) key = Some j /\
            columns df !! j = Some key /\
            col = zip (index df) (column (to_numpy df) j).
Proof.
  unfold getitem. destruct (get_loc (columns df) key) as [j|] eqn:Hj; [|done].
  intros [= <-]. exists j. split; [done|]. split; [|done].
  by apply get_loc_Some.
Qed.

Lemma column_length (a : ndarray) (j : nat) : length (column a j) = length a.
Proof. unfold column. apply length_fmap. Qed.

(** X5.  Looking up a column raises [KeyError] exactly when the key is
    not one of the column names, and then so does the conditional
    distribution; when the key is one of the (distinct) column names,
    both return. *)
Theorem conditional_KeyError_iff (df : DataFrame) (key : label) :
  (getitem df key = Raise KeyError <-> key ∉ columns df) /\
  (conditional df key = Raise KeyError <-> key ∉ columns df) /\
  (NoDup (columns df) -> key ∈ columns df ->
   exists col cond, getitem df key = Ok col /\ conditional df key = Ok cond).
Proof.
  unfold conditional, getitem.
  rewrite <- (get_loc_None_iff (columns df) key).
  destruct (get_loc (columns df) key) as [j|] eqn:Hj; cbn [rbind].
  - split; [split; congruence|]. split; [split; congruence|]. eauto.
  - split; [done|]. split; [done|]. intros _ Hin.
    apply get_loc_elem_of in Hin as [i Hi]. congruence.
Qed.

(** X6.  The sum of the column selected by a name is the weight the
    marginal along [axis=0] gives to that name, for a table with
    distinct column names (the notebook adds up [posterior[180]] and
    then all columns at once). *)
Theorem column_sum_in_marginal (df : DataFrame) (key : label) (col : Pmf) :
  wf df -> NoDup (columns df) -> getitem df key = Ok col ->
  (key, Pmf_sum col) ∈ marginal df axis0.
Proof.
  intros [Hrows Hcols]%shape_ok_spec _ (j & Hloc & Hj & ->)%getitem_Ok.
  unfold Pmf_sum, ps, marginal, df_sum.
  rewrite snd_zip by (rewrite column_length; lia).
  apply list_elem_of_lookup. exists j. apply lookup_zip_Some. split; [done|].
  rewrite list_lookup_fmap, lookup_seq_lt; [done|]. by eapply lookup_lt_Some.
Qed.

Lemma column_sum_in_marginal_witness :
  exists col, getitem joint22 (Qc_of_Z 2) = Ok col /\
              (Qc_of_Z 2, Pmf_sum col) ∈ marginal joint22 axis0.
Proof.
  assert (Hcol : getitem joint22 (Qc_of_Z 2)
                 = Ok [(Qc_of_Z 1, Fin (frac 1 4)); (Qc_of_Z 2, Fin (frac 1 2))])
    by compute_done.
  eexists. split; [exact Hcol|].
  apply (column_sum_in_marginal joint22 (Qc_of_Z 2) _
           ltac:(compute_done) ltac:(compute_done) Hcol).
Defined.

(** X7.  The conditional distribution read off a column is the column
    divided by its total: for a table with distinct column names and
    finite cells and a column whose total is not zero, the result is
    indexed by the row labels, its weights sum to 1, and each weight is
    the cell of the column divided by the column's total. *)
Theorem conditional_column_over_total (df : DataFrame) (key : label) (col : Pmf) :
  wf df -> NoDup (columns df) -> finite_array (to_numpy df) = true ->
  getitem df key = Ok col -> Pmf_sum col <> Fin 0 ->
  exists cond,
    conditional df key = Ok cond /\
    qs cond = index df /\
    Pmf_sum cond = Fin 1 /\
    cond = fmap (fun '(y, p) => (y, fdiv p (Pmf_sum col))) col.
Proof.
  intros Hwf _ Hfin Hget Hsum.
  pose proof Hwf as [Hrows Hcols]%shape_ok_spec.
  pose proof Hget as (j & Hloc & Hj & Hcol)%getitem_Ok.
  assert (Hps : ps col = column (to_numpy df) j).
  { rewrite Hcol. unfold ps. apply snd_zip. rewrite column_length. lia. }
  assert (Hqs : qs col = index df).
  { rewrite Hcol. unfold qs. apply fst_zip. rewrite column_length. lia. }
  assert (Hcolfin : all_finite (ps col) = true).
  { rewrite Hps. eapply all_finite_column; [exact Hcols|exact Hfin|].
    by eapply lookup_lt_Some. }
  unfold conditional. rewrite Hget. cbn [rbind]. eexists. split; [done|].
  unfold Pmf_normalize. cbn [fst]. fold (Pmf_sum col).
  split; [|split; [|apply list_fmap_ext; by intros _ [y p] _]].
  - rewrite <- Hqs. unfold qs. rewrite <- list_fmap_compose.
    apply list_fmap_ext. by intros _ [y p] _.
  - unfold Pmf_sum in *. rewrite (nansum_finite _ Hcolfin) in *.
    assert (Hpsc : ps (fmap (fun '(y, p) => (y, fdiv p (fsum (ps col)))) col)
                   = fmap (fun p => fdiv p (fsum (ps col))) (ps col)).
    { unfold ps. rewrite <- !list_fmap_compose. apply list_fmap_ext.
      by intros _ [y p] _. }
    rewrite Hpsc.
    rewrite nansum_finite.
    + by apply fsum_fdiv_total.
    + pose proof (is_finite_fsum _ Hcolfin) as Hs.
      destruct (fsum (ps col)) as [s| | |] eqn:Es; try done.
      apply all_finite_Forall, Forall_fmap.
      apply all_finite_Forall in Hcolfin.
      eapply Forall_impl; [exact Hcolfin|]. intros [c| | |] Hc; try done.
      simpl. rewrite (proj2 (Qc_zerob_false s)); [done|]. congruence.
Qed.

Lemma conditional_column_over_total_witness :
  exists col cond,
    getitem joint22 (Qc_of_Z 2) = Ok col /\
    conditional joint22 (Qc_of_Z 2) = Ok cond /\
    qs cond = index joint22 /\ Pmf_sum cond = Fin 1.
Proof.
  assert (Hcol : getitem joint22 (Qc_of_Z 2)
                 = Ok [(Qc_of_Z 1, Fin (frac 1 4)); (Qc_of_Z 2, Fin (frac 1 2))])
    by compute_done.
  destruct (conditional_column_over_total joint22 (Qc_of_Z 2) _
              ltac:(compute_done) ltac:(compute_done) ltac:(compute_done)
              Hcol ltac:(compute_done))
    as (cond & Hcond & Hqs & Hsum & _).
  eauto 10.
Defined.

(** ** Independence in the joint prior *)

Lemma fdiv_fmul_cancel_l (w p s : float) :
  is_finite w = true -> w <> Fin 0 ->
  is_finite p = true -> is_finite s = true -> s <> Fin 0 ->
  fdiv (fmul w p) (fmul w s) = fdiv p s.
Proof.
  destruct w as [a| | |], p as [b| | |], s as [c| | |]; try done.
  intros _ Ha _ _ Hc. cbn [fmul].
  assert (Ha0 : a <> 0) by congruence. assert (Hc0 : c <> 0) by congruence.
  assert (Hac : a * c <> 0).
  { intros [?|?]%Qcmult_integral; done. }
  rewrite !fdiv_Fin by done. f_equal.
  unfold Qcdiv. rewrite Qcinv_mult_distr.
  rewrite (Qcmult_comm a b), <- !Qcmult_assoc. f_equal.
  rewrite Qcmult_assoc, Qcmult_inv_r by done. apply Qcmult_1_l.
Qed.

Lemma NoDup_qs_lookup (pmf : Pmf) (x : label) (w : float) :
  NoDup (qs pmf) -> (x, w) ∈ pmf ->
  exists j, get_loc (qs pmf) x = Some j /\ pmf !! j = Some (x, w).
Proof.
  intros Hnd [j' Hj']%list_elem_of_lookup.
  assert (Hin : x ∈ qs pmf).
  { apply list_elem_of_fmap. exists (x, w). split; [done|].
    by eapply list_elem_of_lookup_2. }
  apply get_loc_elem_of in Hin as [j Hj]. exists j. split; [done|].
  pose proof (get_loc_Some _ _ _ Hj) as Hq.
  assert (Hq' : qs pmf !! j' = Some x).
  { unfold qs. by rewrite list_lookup_fmap, Hj'. }
  by rewrite (NoDup_lookup _ _ _ _ Hnd Hq Hq').
Qed.

(** X8.  In a joint table built by [make_joint], knowing the first
    variable says nothing about the second: for distributions with
    finite weights, [pmf1] with distinct quantities and [pmf2] with a
    nonzero total, the conditional distribution read off the column of
    any quantity of [pmf1] that has a nonzero weight is [pmf2]
    normalized, whichever column is taken; it is [pmf2] itself when
    [pmf2] sums to 1. *)
Theorem conditional_of_make_joint (pmf1 pmf2 : Pmf) (x : label) (w : float) :
  NoDup (qs pmf1) -> (x, w) ∈ pmf1 ->
  is_finite w = true -> w <> Fin 0 ->
  finite_pmf pmf2 = true -> Pmf_sum pmf2 <> Fin 0 ->
  exists joint,
    make_joint pmf1 pmf2 = Ok joint /\
    conditional joint x = Ok (fst (Pmf_normalize pmf2)) /\
    (Pmf_sum pmf2 = Fin 1 -> conditional joint x = Ok pmf2).
Proof.
  intros Hnd Hin Hw Hw0 Hf2 Hs2.
  destruct (NoDup_qs_lookup pmf1 x w Hnd Hin) as (j & Hloc & Hj).
  eexists. split; [apply make_joint_Ok|].
  assert (Hcond : conditional
            {| index := qs pmf2; columns := qs pmf1;
               to_numpy := fmap (fun wy => fmap (fun wx => fmul wx wy) (ps pmf1))
                                (ps pmf2) |} x
          = Ok (fst (Pmf_normalize pmf2))).
  { unfold conditional, getitem. cbn [index columns to_numpy].
    rewrite Hloc. cbn [rbind]. f_equal.
    rewrite (outer_column (ps pmf1) (ps pmf2) j w)
      by (unfold ps; by rewrite list_lookup_fmap, Hj).
    unfold Pmf_sum in Hs2. unfold finite_pmf in Hf2.
    rewrite (nansum_finite _ Hf2) in Hs2.
    unfold Pmf_normalize. cbn [fst].
    assert (Hps : ps (zip (qs pmf2) (fmap (fun wy => fmul w wy) (ps pmf2)))
                  = fmap (fun wy => fmul w wy) (ps pmf2)).
    { unfold ps at 1. apply snd_zip. rewrite length_fmap, qs_length. lia. }
    rewrite Hps, !nansum_finite by (done || by apply all_finite_fmul_l).
    rewrite fsum_fmul_l by done.
    unfold qs, ps.
    rewrite zip_with_fmap_l, <- list_fmap_compose, zip_with_fmap_r, zip_with_diag.
    rewrite <- list_fmap_compose. apply list_fmap_ext.
    intros i [q p] Hi. simpl. f_equal.
    apply fdiv_fmul_cancel_l; try done.
    - eapply (all_finite_In (ps pmf2)); [done|].
      apply list_elem_of_fmap. exists (q, p). split; [done|].
      by eapply list_elem_of_lookup_2.
    - by apply is_finite_fsum. }
  split; [exact Hcond|]. intros Hone. rewrite Hcond. f_equal.
  unfold Pmf_normalize. cbn [fst]. fold (Pmf_sum pmf2). rewrite Hone.
  rewrite <- (list_fmap_id pmf2) at 2. apply list_fmap_ext.
  intros _ [q p] _. simpl. by rewrite fdiv_1_r.
Qed.

Lemma conditional_of_make_joint_witness :
  exists joint, make_joint pmf123 pmf_ab = Ok joint /\
                conditional joint (Qc_of_Z 3) = Ok pmf_ab.
Proof.
  destruct (conditional_of_make_joint pmf123 pmf_ab (Qc_of_Z 3) (Fin (frac 1 2))
              ltac:(compute_done) ltac:(compute_done) ltac:(compute_done)
              ltac:(compute_done) ltac:(compute_done) ltac:(compute_done))
    as (joint & Hjoint & _ & Hcond).
  exists joint. split; [exact Hjoint|]. apply Hcond. compute_done.
Defined.

(** ** Marginals of a table of NaN *)

Lemma nansum_all_nan (l : list float) :
  Forall (fun c => c = NaN) l -> nansum l = Fin 0.
Proof.
  intros Hl. unfold nansum.
  induction Hl as [|c l -> _ IH]; [done|].
  by rewrite filter_cons_False.
Qed.

Lemma nansum_all_zero (l : list float) :
  Forall (fun c => c = Fin 0) l -> nansum l = Fin 0.
Proof.
  intros Hl. unfold nansum.
  induction Hl as [|c l -> _ IH]; [done|].
  rewrite filter_cons_True by done. rewrite fsum_cons, IH. apply fadd_0_l.
Qed.

(** X9.  [marginal] never reports [NaN] for a table of [NaN]: pandas
    leaves [NaN] cells out of the sums, so both marginals of a table
    whose cells are all [NaN] (what an update with zero evidence leaves
    behind) give the weight 0 to every quantity and have total 0. *)
Theorem marginal_of_nan_table (df : DataFrame) (ax : axis) :
  Forall (Forall (fun c => c = NaN)) (to_numpy df) ->
  Forall (fun qp => snd qp = Fin 0) (marginal df ax) /\
  Pmf_sum (marginal df ax) = Fin 0.
Proof.
  intros Hnan.
  assert (Hw : Forall (fun p => p = Fin 0) (ps (marginal df ax))).
  { unfold ps. apply Forall_fmap, Forall_forall. intros [q p] Hqp. simpl.
    unfold marginal, df_sum in Hqp. destruct ax.
    - apply elem_of_zip_r, list_elem_of_fmap in Hqp as (j & -> & _).
      apply nansum_all_nan. unfold column.
      apply Forall_fmap. eapply Forall_impl; [exact Hnan|].
      intros row Hrow. simpl. destruct (row !! j) as [c|] eqn:Hc; [|done].
      simpl. rewrite Forall_forall in Hrow.
      by eapply Hrow, list_elem_of_lookup_2.
    - apply elem_of_zip_r, list_elem_of_fmap in Hqp as (row & -> & Hrow).
      apply nansum_all_nan. rewrite Forall_forall in Hnan. by apply Hnan. }
  split.
  - unfold ps in Hw. by apply Forall_fmap in Hw.
  - unfold Pmf_sum. by apply nansum_all_zero.
Qed.

Lemma marginal_of_nan_table_witness :
  let zeros := constant_frame (index joint22) (columns joint22) (Fin 0) in
  Pmf_sum (marginal (fst (update joint22 zeros)) axis0) = Fin 0 /\
  Pmf_sum (marginal (fst (update joint22 zeros)) axis1) = Fin 0.
Proof.
  intros zeros.
  split; apply (marginal_of_nan_table (fst (update joint22 zeros)));
    compute_done.
Defined.

(** ** Rescaling the prior, and updating twice *)

Lemma zip_with_fmul_fdiv_l (l k : list float) (c : float) :
  all_finite l = true -> all_finite k = true ->
  is_finite c = true -> c <> Fin 0 ->
  zip_with fmul (fmap (fun x => fdiv x c) l) k
  = fmap (fun x => fdiv x c) (zip_with fmul l k).
Proof.
  intros Hl Hk Hc Hc0. destruct c as [q| | |]; try done.
  assert (Hq : q <> 0) by congruence.
  revert k Hk. induction l as [|x l IH]; intros [|y k] Hk; try done.
  apply all_finite_cons in Hl as [Hx Hl]. apply all_finite_cons in Hk as [Hy Hk].
  rewrite fmap_cons. cbn [zip_with]. rewrite fmap_cons, IH by done. f_equal.
  destruct x as [a| | |], y as [b| | |]; try done.
  rewrite fdiv_Fin by done. cbn [fmul]. rewrite fdiv_Fin by done. f_equal.
  unfold Qcdiv. rewrite <- !Qcmult_assoc. f_equal. apply Qcmult_comm.
Qed.

Lemma elementwise_fmul_fdiv_l (A B : ndarray) (c : float) :
  finite_array A = true -> finite_array B = true ->
  is_finite c = true -> c <> Fin 0 ->
  elementwise fmul (fmap (fun row : list float => fmap (fun x => fdiv x c) row) A) B
  = fmap (fun row : list float => fmap (fun x => fdiv x c) row)
         (elementwise fmul A B).
Proof.
  intros HA HB Hc Hc0. unfold elementwise.
  apply finite_array_Forall in HA. apply finite_array_Forall in HB.
  revert B HB. induction HA as [|row A Hrow _ IH]; intros [|r B] HB; try done.
  apply Forall_cons in HB as [Hr HB].
  rewrite fmap_cons. cbn [zip_with]. rewrite fmap_cons, IH by done. f_equal.
  by apply zip_with_fmul_fdiv_l.
Qed.

Lemma np_sum_fdiv (C : ndarray) (c : float) :
  finite_array C = true -> is_finite c = true -> c <> Fin 0 ->
  np_sum (fmap (fun row : list float => fmap (fun x => fdiv x c) row) C)
  = fdiv (np_sum C) c.
Proof.
  intros HC Hc Hc0. destruct c as [q| | |]; try done.
  assert (Hq : q <> 0) by congruence.
  unfold np_sum. rewrite concat_fmap_fmap.
  pose proof (finite_array_concat C HC) as Hfin.
  rewrite (fsum_finite _ Hfin). rewrite (all_finite_Fin _ Hfin) at 1.
  rewrite <- list_fmap_compose.
  erewrite list_fmap_ext with (g := Fin ∘ (fun x => x / q)).
  - rewrite list_fmap_compose, fsum_Fin, qsum_div. by rewrite fdiv_Fin.
  - intros i x _. simpl. by apply fdiv_Fin.
Qed.

Lemma fdiv_fdiv_cancel (x c s : float) :
  is_finite x = true -> is_finite c = true -> c <> Fin 0 ->
  is_finite s = true -> s <> Fin 0 ->
  fdiv (fdiv x c) (fdiv s c) = fdiv x s.
Proof.
  destruct x as [a| | |], c as [q| | |], s as [t| | |]; try done.
  intros _ _ Hq _ Ht.
  assert (Hq0 : q <> 0) by congruence. assert (Ht0 : t <> 0) by congruence.
  assert (Hq1 : / q <> 0).
  { intros H. apply (Qcmult_inv_r q) in Hq0. rewrite H, Qcmult_0_r in Hq0.
    by apply Q_apart_0_1. }
  assert (Htq : t / q <> 0).
  { unfold Qcdiv. intros [?|?]%Qcmult_integral; done. }
  rewrite !fdiv_Fin by done. f_equal.
  unfold Qcdiv. rewrite Qcinv_mult_distr.
  rewrite <- !Qcmult_assoc. f_equal.
  rewrite (Qcmult_comm (/ t)), Qcmult_assoc.
  assert (Hinv : / q * / / q = 1) by (by apply Qcmult_inv_r).
  rewrite Hinv. apply Qcmult_1_l.
Qed.

Lemma finite_array_fdiv (C : ndarray) (c : float) :
  finite_array C = true -> is_finite c = true -> c <> Fin 0 ->
  finite_array (fmap (fun row : list float => fmap (fun x => fdiv x c) row) C)
  = true.
Proof.
  intros HC Hc Hc0. destruct c as [q| | |]; try done.
  assert (Hq : q <> 0) by congruence.
  apply finite_array_Forall, Forall_fmap.
  apply finite_array_Forall in HC.
  eapply Forall_impl; [exact HC|]. intros row Hrow. simpl.
  apply all_finite_Forall, Forall_fmap. apply all_finite_Forall in Hrow.
  eapply Forall_impl; [exact Hrow|]. intros [a| | |] Ha; try done.
  simpl. by rewrite (proj2 (Qc_zerob_false q) Hq).
Qed.

Lemma df_div_wf (J : DataFrame) (c : float) : wf J -> wf (df_div J c).
Proof.
  intros [Hn Hm]%shape_ok_spec. apply shape_ok_spec.
  cbn [df_div index columns to_numpy]. split; [by rewrite length_fmap|].
  apply Forall_fmap. eapply Forall_impl; [exact Hm|].
  intros row Hrow. simpl. by rewrite length_fmap.
Qed.

(** Dividing the joint prior by a nonzero constant before the update
    divides the evidence by it and changes nothing in the posterior. *)
Lemma update_df_div (J L : DataFrame) (c : float) :
  wf J -> wf L -> index L = index J -> columns L = columns J ->
  finite_array (to_numpy J) = true -> finite_array (to_numpy L) = true ->
  is_finite c = true -> c <> Fin 0 -> snd (update J L) <> Fin 0 ->
  update (df_div J c) L = (fst (update J L), fdiv (snd (update J L)) c).
Proof.
  intros HJ HL Hi Hc HfJ HfL Hfc Hc0.
  rewrite (update_aligned J L HJ HL Hi Hc).
  rewrite (update_aligned (df_div J c) L (df_div_wf J c HJ) HL Hi Hc).
  cbn [fst snd df_div index columns to_numpy]. intros Hev.
  pose proof (finite_array_elementwise_fmul _ _ HfJ HfL) as Hfp.
  set (product := elementwise fmul (to_numpy J) (to_numpy L)) in *.
  rewrite (elementwise_fmul_fdiv_l _ _ c HfJ HfL Hfc Hc0). fold product.
  rewrite (np_sum_fdiv product c Hfp Hfc Hc0).
  f_equal. f_equal.
  rewrite <- list_fmap_compose. apply list_fmap_ext. intros i row Hrow. simpl.
  rewrite <- list_fmap_compose. apply list_fmap_ext. intros k x Hx. simpl.
  apply fdiv_fdiv_cancel; try done.
  - apply finite_array_Forall in Hfp. eapply Forall_lookup_1 in Hfp; [|done].
    eapply all_finite_In; [done|]. by eapply list_elem_of_lookup_2.
  - unfold np_sum. by apply is_finite_fsum, finite_array_concat.
Qed.

(** X10.  Whether the joint prior is normalized before the update makes
    no difference to the posterior: for tables on the same axes with
    finite cells, a joint prior whose total is not zero and an update
    whose evidence is not zero, updating the normalized prior gives the
    posterior of the unnormalized one, and the evidence divided by the
    prior's total. *)
Theorem update_of_normalized_prior (J L : DataFrame) :
  wf J -> wf L -> index L = index J -> columns L = columns J ->
  finite_array (to_numpy J) = true -> finite_array (to_numpy L) = true ->
  np_sum (to_numpy J) <> Fin 0 -> snd (update J L) <> Fin 0 ->
  update (fst (normalize J)) L
  = (fst (update J L), fdiv (snd (update J L)) (snd (normalize J))).
Proof.
  intros HJ HL Hi Hc HfJ HfL HsJ Hev. unfold normalize. cbn [fst snd].
  apply update_df_div; try done.
  unfold np_sum. by apply is_finite_fsum, finite_array_concat.
Qed.

Lemma update_of_normalized_prior_witness :
  update (fst (normalize ones22)) like22
  = (fst (update ones22 like22), Fin (frac 1 4)).
Proof.
  rewrite (update_of_normalized_prior ones22 like22); compute_done.
Defined.

Lemma fmul_fdiv_cancel (e x : float) :
  is_finite e = true -> e <> Fin 0 -> is_finite x = true ->
  fmul e (fdiv x e) = x.
Proof.
  destruct e as [q| | |], x as [a| | |]; try done. intros _ Hq _.
  assert (Hq0 : q <> 0) by congruence.
  rewrite fdiv_Fin by done. cbn [fmul]. f_equal. by apply Qcmult_div_r.
Qed.

(** X11.  Two updates in a row.  For tables on the same axes with finite
    cells, updating with [L1], then updating the normalized posterior
    with [L2], leaves the posterior that a single normalization of the
    product of the three tables gives, and the two evidences multiply to
    the total of that product, provided neither total is zero. *)
Theorem update_twice (J L1 L2 : DataFrame) :
  wf J -> wf L1 -> wf L2 ->
  index L1 = index J -> columns L1 = columns J ->
  index L2 = index J -> columns L2 = columns J ->
  finite_array (to_numpy J) = true -> finite_array (to_numpy L1) = true ->
  finite_array (to_numpy L2) = true ->
  snd (update J L1) <> Fin 0 ->
  snd (update (df_mul J L1) L2) <> Fin 0 ->
  fst (update (fst (update J L1)) L2) = fst (update (df_mul J L1) L2) /\
  fmul (snd (update J L1)) (snd (update (fst (update J L1)) L2))
  = snd (update (df_mul J L1) L2).
Proof.
  intros HJ HL1 HL2 Hi1 Hc1 Hi2 Hc2 HfJ Hf1 Hf2 He1 He12.
  set (M := df_mul J L1) in *.
  assert (HM : M = {| index := index J; columns := columns J;
                      to_numpy := elementwise fmul (to_numpy J) (to_numpy L1) |})
    by (by apply df_mul_aligned).
  assert (HfM : finite_array (to_numpy M) = true).
  { rewrite HM. cbn [to_numpy]. by apply finite_array_elementwise_fmul. }
  assert (HwM : wf M).
  { rewrite HM. apply shape_ok_spec. cbn [index columns to_numpy].
    apply shape_ok_spec in HJ as [HJn HJm].
    apply shape_ok_spec in HL1 as [HLn HLm]. unfold elementwise. split.
    - rewrite length_zip_with, HJn, HLn, Hi1. lia.
    - apply Forall_forall. intros row Hrow.
      apply elem_of_lookup_zip_with in Hrow as (i & r1 & r2 & -> & H1 & H2).
      eapply Forall_lookup_1 in HJm; [|done].
      eapply Forall_lookup_1 in HLm; [|done].
      rewrite length_zip_with, HJm, HLm, Hc1. lia. }
  assert (HiM : index L2 = index M) by (by rewrite HM).
  assert (HcM : columns L2 = columns M) by (by rewrite HM).
  assert (Hfe : is_finite (np_sum (to_numpy M)) = true).
  { unfold np_sum. by apply is_finite_fsum, finite_array_concat. }
  assert (Hupd : update J L1 = (df_div M (np_sum (to_numpy M)), np_sum (to_numpy M)))
    by done.
  rewrite Hupd in *. cbn [fst snd] in *.
  rewrite (update_df_div M L2 _ HwM HL2 HiM HcM HfM Hf2 Hfe He1 He12).
  cbn [fst snd]. split; [done|].
  apply fmul_fdiv_cancel; try done.
  rewrite (update_aligned M L2 HwM HL2 HiM HcM). cbn [snd].
  unfold np_sum. apply is_finite_fsum, finite_array_concat.
  by apply finite_array_elementwise_fmul.
Qed.

Lemma update_twice_witness :
  fst (update (fst (update joint22 joint22)) like22)
  = fst (update (df_mul joint22 joint22) like22) /\
  fmul (snd (update joint22 joint22))
       (snd (update (fst (update joint22 joint22)) like22))
  = Fin (frac 1 16).
Proof.
  destruct (update_twice joint22 joint22 like22
              ltac:(compute_done) ltac:(compute_done) ltac:(compute_done)
              ltac:(compute_done) ltac:(compute_done) ltac:(compute_done)
              ltac:(compute_done) ltac:(compute_done) ltac:(compute_done)
              ltac:(compute_done) ltac:(compute_done) ltac:(compute_done))
    as [Hpost Hev].
  split; [exact Hpost|]. rewrite Hev. compute_done.
Defined.

(** ** The posterior is a table of probabilities *)

Lemma fsum_ge_elem (l : list float) (x : float) :
  Forall fnonneg l -> x ∈ l -> to_Qc x <= to_Qc (fsum l).
Proof.
  intros Hl. induction Hl as [|y l Hy Hl IH]; [by intros ?%elem_of_nil|].
  pose proof (fsum_nonneg l Hl) as Hs. rewrite fsum_cons.
  intros [->|Hx]%elem_of_cons.
  - destruct y as [a| | |], (fsum l) as [s| | |]; simpl in *; try done.
    rewrite <- (Qcplus_0_r a) at 1. by apply Qcplus_le_mono_l.
  - specialize (IH Hx).
    destruct y as [a| | |], (fsum l) as [s| | |]; simpl in *; try done.
    rewrite <- (Qcplus_0_l (to_Qc x)). by apply Qcplus_le_compat.
Qed.

Lemma fdiv_probability (x e : float) :
  fnonneg x -> fpos e -> to_Qc x <= to_Qc e -> is_probability (fdiv x e).
Proof.
  destruct x as [a| | |], e as [s| | |]; simpl; try done. intros Ha Hs Hle.
  rewrite (Qc_zerob_pos s Hs). simpl. split.
  - apply Qcmult_nonneg_nonneg; [done | by apply Qclt_le_weak, Qcinv_pos].
  - rewrite <- (Qcmult_inv_r s) by (intros ->; by apply Qclt_not_eq in Hs).
    unfold Qcdiv. apply Qcmult_le_mono_nonneg_r; [|done].
    by apply Qclt_le_weak, Qcinv_pos.
Qed.

Lemma fnonneg_nonzero_pos (e : float) : fnonneg e -> e <> Fin 0 -> fpos e.
Proof.
  destruct e as [s| | |]; simpl; try done. intros Hs Hne.
  apply Qcle_lt_or_eq in Hs as [Hs|Hs]; [done|]. by subst.
Qed.

(** X12.  For a joint prior and a likelihood on the same axes whose
    cells are finite and not negative, an update with nonzero evidence
    has positive evidence and leaves a posterior every cell of which is
    a finite number between 0 and 1. *)
Theorem update_posterior_probabilities (J L : DataFrame) :
  wf J -> wf L -> index L = index J -> columns L = columns J ->
  Forall (Forall fnonneg) (to_numpy J) -> Forall (Forall fnonneg) (to_numpy L) ->
  snd (update J L) <> Fin 0 ->
  fpos (snd (update J L)) /\
  Forall (Forall is_probability) (to_numpy (fst (update J L))).
Proof.
  intros HJ HL Hi Hc HnJ HnL.
  rewrite (update_aligned J L HJ HL Hi Hc). cbn [fst snd to_numpy].
  set (product := elementwise fmul (to_numpy J) (to_numpy L)).
  intros Hev.
  assert (Hnp : Forall (Forall fnonneg) product).
  { unfold product, elementwise.
    eapply Forall_zip_with_fst; [exact HnJ|].
    eapply Forall_impl; [exact HnL|]. intros k Hk l Hl.
    eapply Forall_zip_with_fst; [exact Hl|].
    eapply Forall_impl; [exact Hk|]. intros y Hy x Hx. by apply fmul_nonneg. }
  assert (Hflat : Forall fnonneg (concat product)).
  { apply Forall_forall. intros c Hc'.
    apply list_elem_of_In, in_concat in Hc' as (row & Hrow & Hc').
    rewrite Forall_forall in Hnp. specialize (Hnp row).
    rewrite Forall_forall in Hnp. apply Hnp; by apply list_elem_of_In. }
  assert (Hpos : fpos (np_sum product)).
  { apply fnonneg_nonzero_pos; [|done]. by apply fsum_nonneg. }
  split; [exact Hpos|].
  apply Forall_fmap, Forall_forall. intros row Hrow. simpl.
  apply Forall_fmap, Forall_forall. intros c Hc'. simpl.
  assert (Hin : c ∈ concat product).
  { apply list_elem_of_In, in_concat. exists row.
    split; by apply list_elem_of_In. }
  apply fdiv_probability; [|done|by apply fsum_ge_elem].
  rewrite Forall_forall in Hflat. by apply Hflat.
Qed.

Lemma update_posterior_probabilities_witness :
  Forall (Forall is_probability) (to_numpy (fst (update joint22 like22))).
Proof.
  apply (update_posterior_probabilities joint22 like22);
    try compute_done; repeat constructor; done.
Defined.

(** ** Exchanging the two distributions *)

Lemma outer_cell {A B} (f : A -> A -> B) (X Y : list A) (i j : nat) :
  fmap (fun y => fmap (fun x => f x y) X) Y !! i ≫= (fun row => row !! j)
  = y ← Y !! i; x ← X !! j; Some (f x y).
Proof.
  rewrite list_lookup_fmap. destruct (Y !! i) as [y|]; [|done]. simpl.
  rewrite list_lookup_fmap. by destruct (X !! j).
Qed.

(** X13.  Which distribution is given first only decides which way the
    table lies: [make_joint pmf2 pmf1] is the transpose of
    [make_joint pmf1 pmf2], with row labels and column names exchanged
    and the cell at (j, i) equal to the cell at (i, j). *)
Theorem make_joint_transposed (pmf1 pmf2 : Pmf) :
  exists joint12 joint21,
    make_joint pmf1 pmf2 = Ok joint12 /\
    make_joint pmf2 pmf1 = Ok joint21 /\
    index joint21 = columns joint12 /\
    columns joint21 = index joint12 /\
    (forall i j, cell (to_numpy joint21) j i = cell (to_numpy joint12) i j).
Proof.
  eexists _, _. split; [apply make_joint_Ok|]. split; [apply make_joint_Ok|].
  cbn [index columns to_numpy]. split; [done|]. split; [done|].
  intros i j. unfold cell.
  rewrite (outer_cell (fun wx wy => fmul wx wy) (ps pmf2) (ps pmf1) j i).
  rewrite (outer_cell (fun wx wy => fmul wx wy) (ps pmf1) (ps pmf2) i j).
  destruct (ps pmf1 !! j) as [w1|], (ps pmf2 !! i) as [w2|]; try done.
  simpl. f_equal. apply fmul_comm.
Qed.

(** ** Posterior means *)

Lemma qsum_cons (q : Qc) (l : list Qc) : qsum (q :: l) = q + qsum l.
Proof. done. Qed.

Lemma qsum_plus {A} (f g : A -> Qc) (l : list A) :
  qsum (fmap (fun x => f x + g x) l) = qsum (fmap f l) + qsum (fmap g l).
Proof.
  induction l as [|x l IH]; [by rewrite Qcplus_0_l|].
  rewrite !fmap_cons, !qsum_cons, IH.
  rewrite <- !Qcplus_assoc. f_equal.
  rewrite !Qcplus_assoc. f_equal. apply Qcplus_comm.
Qed.

Lemma qsum_zero {A} (l : list A) : qsum (fmap (fun _ => 0) l) = 0.
Proof.
  induction l as [|x l IH]; [done|].
  by rewrite fmap_cons, qsum_cons, IH, Qcplus_0_l.
Qed.

(** Interchanging two finite sums. *)
Lemma qsum_swap {A B} (f : A -> B -> Qc) (X : list A) (Y : list B) :
  qsum (fmap (fun x => qsum (fmap (fun y => f x y) Y)) X)
  = qsum (fmap (fun y => qsum (fmap (fun x => f x y) X)) Y).
Proof.
  induction X as [|x X IH].
  - simpl. symmetry. apply qsum_zero.
  - rewrite fmap_cons, qsum_cons, IH.
    rewrite <- (qsum_plus (fun y => f x y)
                          (fun y => qsum (fmap (fun x' => f x' y) X))).
    f_equal.
Qed.

Lemma qsum_scale_r {A} (f : A -> Qc) (c : Qc) (l : list A) :
  qsum (fmap (fun x => f x * c) l) = qsum (fmap f l) * c.
Proof.
  induction l as [|x l IH]; [by rewrite Qcmult_0_l|].
  by rewrite !fmap_cons, !qsum_cons, IH, Qcmult_plus_distr_l.
Qed.

Lemma qsum_le {A} (f g : A -> Qc) (l : list A) :
  (forall x, x ∈ l -> f x <= g x) ->
  qsum (fmap f l) <= qsum (fmap g l).
Proof.
  induction l as [|x l IH]; intros Hfg; [apply Qcle_refl|].
  rewrite !fmap_cons, !qsum_cons. apply Qcplus_le_compat.
  - apply Hfg. by left.
  - apply IH. intros y Hy. apply Hfg. by right.
Qed.

Lemma qsum_lt {A} (f g : A -> Qc) (l : list A) (x0 : A) :
  (forall x, x ∈ l -> f x <= g x) -> x0 ∈ l -> f x0 < g x0 ->
  qsum (fmap f l) < qsum (fmap g l).
Proof.
  induction l as [|x l IH]; intros Hfg Hin Hlt; [by apply elem_of_nil in Hin|].
  rewrite !fmap_cons, !qsum_cons.
  assert (Hrest : qsum (fmap f l) <= qsum (fmap g l)).
  { apply qsum_le. intros y Hy. apply Hfg. by right. }
  apply elem_of_cons in Hin as [->|Hin].
  - apply Qclt_le_trans with (g x + qsum (fmap f l)).
    + by apply Qcplus_lt_mono_r.
    + by apply Qcplus_le_mono_l.
  - apply Qcle_lt_trans with (g x + qsum (fmap f l)).
    + apply Qcplus_le_mono_r. apply Hfg. by left.
    + apply Qcplus_lt_mono_l. apply IH; [|done|done].
      intros y Hy. apply Hfg. by right.
Qed.

Lemma fsum_fmap_Fin {A} (g : A -> Qc) (l : list A) :
  fsum (fmap (fun x => Fin (g x)) l) = Fin (qsum (fmap g l)).
Proof.
  change (fun x => Fin (g x)) with (Fin ∘ g).
  by rewrite list_fmap_compose, fsum_Fin.
Qed.

Lemma nansum_fmap_Fin {A} (g : A -> Qc) (l : list A) :
  nansum (fmap (fun x => Fin (g x)) l) = Fin (qsum (fmap g l)).
Proof.
  rewrite nansum_finite; [apply fsum_fmap_Fin|].
  apply all_finite_Forall, Forall_fmap, Forall_forall. by intros.
Qed.

Lemma fmap_seq_lookup {A B} (l : list A) (h : nat -> B) (h' : A -> B) :
  (forall j x, l !! j = Some x -> h j = h' x) ->
  fmap h (seq 0 (length l)) = fmap h' l.
Proof.
  intros Hh. apply list_eq. intros i. rewrite !list_lookup_fmap.
  destruct (decide (i < length l)%nat) as [Hi|Hi].
  - rewrite lookup_seq_lt by done.
    destruct (lookup_lt_is_Some_2 l i Hi) as [x Hx]. rewrite Hx. simpl.
    f_equal. by apply Hh.
  - rewrite lookup_seq_ge by lia.
    by rewrite (proj2 (lookup_ge_None l i)) by lia.
Qed.

Lemma Pmf_mean_Fin {A} (l : list A) (q w : A -> Qc) :
  Pmf_mean (fmap (fun x => (q x, Fin (w x))) l)
  = Fin (qsum (fmap (fun x => w x * q x) l)).
Proof.
  unfold Pmf_mean, ps, qs. rewrite <- !list_fmap_compose.
  rewrite zip_with_fmap_l, zip_with_fmap_r, zip_with_diag.
  apply (fsum_fmap_Fin (fun x => w x * q x)).
Qed.

(** The two marginals of a table given by a function of the column
    entry and the row entry, over the same list of entries. *)
Lemma marginals_of_outer {A} (l : list A) (q : A -> Qc) (g : A -> A -> Qc) :
  let df := {| index := fmap q l; columns := fmap q l;
               to_numpy := fmap (fun y => fmap (fun x => Fin (g x y)) l) l |} in
  marginal df axis0
  = fmap (fun x => (q x, Fin (qsum (fmap (fun y => g x y) l)))) l /\
  marginal df axis1
  = fmap (fun y => (q y, Fin (qsum (fmap (fun x => g x y) l)))) l.
Proof.
  intros df. unfold marginal, df_sum, df. cbn [index columns to_numpy]. split.
  - rewrite length_fmap.
    rewrite (fmap_seq_lookup l _
               (fun x => Fin (qsum (fmap (fun y => g x y) l)))).
    + by rewrite zip_with_fmap_l, zip_with_fmap_r, zip_with_diag.
    + intros j x Hx. unfold column. rewrite <- list_fmap_compose.
      rewrite <- (nansum_fmap_Fin (fun y => g x y)). f_equal.
      apply list_fmap_ext. intros i y _. simpl.
      by rewrite list_lookup_fmap, Hx.
  - rewrite <- list_fmap_compose.
    rewrite zip_with_fmap_l, zip_with_fmap_r, zip_with_diag.
    apply list_fmap_ext. intros i y _. simpl. f_equal.
    apply nansum_fmap_Fin.
Qed.

(** X14.  After the update with "A is taller than B", the posterior mean
    of A exceeds the posterior mean of B: for a prior with positive
    finite weights that has two quantities, one below the other, the
    mean of the marginal along [axis=0] (A) and the mean of the marginal
    along [axis=1] (B) are finite and the first is strictly larger. *)
Theorem taller_posterior_means (prior : Pmf) (x0 y0 : label * float) :
  Forall (fun y => fpos (snd y)) prior ->
  x0 ∈ prior -> y0 ∈ prior -> fst y0 < fst x0 ->
  exists joint lik a b,
    make_joint prior prior = Ok joint /\
    likelihood joint = Ok lik /\
    Pmf_mean (marginal (fst (update joint lik)) axis0) = Fin a /\
    Pmf_mean (marginal (fst (update joint lik)) axis1) = Fin b /\
    b < a.
Proof.
  intros Hpos Hx0 Hy0 Hlt.
  destruct (taller_update prior) as (joint & lik & Hj & Hl & Hu).
  pose proof (taller_evidence_pos prior Hpos x0 y0 Hx0 Hy0 Hlt) as Hev.
  rewrite Forall_forall in Hpos.
  set (e := np_sum (fmap (fun y => fmap (fun x => taller_cell x y) prior) prior))
    in *.
  set (g := fun x y : Qc * float => to_Qc (fdiv (taller_cell x y) e)).
  (* the cells of the posterior as rationals *)
  assert (Hcell : forall x y, x ∈ prior -> y ∈ prior ->
                    fdiv (taller_cell x y) e = Fin (g x y) /\ 0 <= g x y /\
                    (fst y < fst x -> 0 < g x y) /\
                    (~ fst y < fst x -> g x y = 0)).
  { intros x y Hx Hy. unfold g.
    pose proof (fdiv_nonneg _ _
                  (taller_cell_nonneg x y (Hpos x Hx) (Hpos y Hy)) Hev) as Hnn.
    split; [by apply is_finite_Fin, fnonneg_finite|]. split; [|split].
    - by destruct (fdiv (taller_cell x y) e).
    - intros Hxy.
      pose proof (fdiv_pos _ _
                    (taller_cell_pos x y (Hpos x Hx) (Hpos y Hy) Hxy) Hev) as Hp.
      by destruct (fdiv (taller_cell x y) e).
    - intros Hxy.
      rewrite (taller_cell_zero x y (Hpos x Hx) (Hpos y Hy) Hxy).
      by rewrite fdiv_zero_l. }
  assert (Hpost : fst (update joint lik)
                  = {| index := fmap fst prior; columns := fmap fst prior;
                       to_numpy := fmap (fun y => fmap (fun x => Fin (g x y)) prior)
                                        prior |}).
  { rewrite Hu. cbn [fst]. unfold qs. f_equal.
    rewrite <- list_fmap_compose. apply list_fmap_ext. intros i y Hy. simpl.
    rewrite <- list_fmap_compose. apply list_fmap_ext. intros k x Hx. simpl.
    apply Hcell; by eapply list_elem_of_lookup_2. }
  destruct (marginals_of_outer prior fst g) as [HmA HmB].
  cbv zeta in HmA, HmB. rewrite <- Hpost in HmA, HmB.
  exists joint, lik. eexists _, _. split; [exact Hj|]. split; [exact Hl|].
  rewrite HmA, HmB.
  rewrite (Pmf_mean_Fin prior fst (fun x => qsum (fmap (fun y => g x y) prior))).
  rewrite (Pmf_mean_Fin prior fst (fun y => qsum (fmap (fun x => g x y) prior))).
  split; [done|]. split; [done|].
  (* both means as double sums over (x, y) *)
  rewrite (list_fmap_ext
             (fun y => qsum (fmap (fun x => g x y) prior) * fst y)
             (fun y => qsum (fmap (fun x => g x y * fst y) prior)) prior)
    by (intros; by rewrite qsum_scale_r).
  rewrite <- (qsum_swap (fun x y => g x y * fst y) prior prior).
  rewrite (list_fmap_ext
             (fun x => qsum (fmap (fun y => g x y) prior) * fst x)
             (fun x => qsum (fmap (fun y => g x y * fst x) prior)) prior)
    by (intros; by rewrite qsum_scale_r).
  assert (Hterm : forall x y, x ∈ prior -> y ∈ prior ->
                    g x y * fst y <= g x y * fst x).
  { intros x y Hx Hy. destruct (Hcell x y Hx Hy) as (_ & Hnn & _ & Hz).
    destruct (Qclt_le_dec (fst y) (fst x)) as [Hxy|Hxy].
    - apply Qcmult_le_mono_nonneg_l; [done | by apply Qclt_le_weak].
    - rewrite Hz by (by apply Qcle_not_lt). rewrite !Qcmult_0_l.
      apply Qcle_refl. }
  apply (qsum_lt _ _ prior x0); [|done|].
  - intros x Hx. apply qsum_le. intros y Hy. by apply Hterm.
  - apply (qsum_lt _ _ prior y0); [|done|].
    + intros y Hy. by apply Hterm.
    + destruct (Hcell x0 y0 Hx0 Hy0) as (_ & _ & Hp & _).
      apply Qcmult_lt_mono_pos_l; [by apply Hp | done].
Qed.

Lemma taller_posterior_means_witness :
  exists joint lik a b,
    make_joint pmf123 pmf123 = Ok joint /\
    likelihood joint = Ok lik /\
    Pmf_mean (marginal (fst (update joint lik)) axis0) = Fin a /\
    Pmf_mean (marginal (fst (update joint lik)) axis1) = Fin b /\
    b < a.
Proof.
  assert (Hpos : Forall (fun y : Qc * float => fpos (snd y)) pmf123)
    by (repeat constructor).
  apply (taller_posterior_means pmf123
           (Qc_of_Z 2, Fin (frac 3 10)) (Qc_of_Z 1, Fin (frac 1 5))
           Hpos ltac:(compute_done) ltac:(compute_done) ltac:(compute_done)).
Defined.

(** ** Normalizing the priors or the joint table *)

Lemma fdiv_fmul_fdiv (w1 w2 s1 s2 : float) :
  is_finite w1 = true -> is_finite w2 = true ->
  is_finite s1 = true -> s1 <> Fin 0 -> is_finite s2 = true -> s2 <> Fin 0 ->
  fmul (fdiv w1 s1) (fdiv w2 s2) = fdiv (fmul w1 w2) (fmul s1 s2).
Proof.
  destruct w1 as [a| | |], w2 as [b| | |], s1 as [c| | |], s2 as [d| | |];
    try done.
  intros _ _ _ Hc _ Hd.
  assert (Hc0 : c <> 0) by congruence. assert (Hd0 : d <> 0) by congruence.
  assert (Hcd : c * d <> 0) by (intros [?|?]%Qcmult_integral; done).
  cbn [fmul]. rewrite !fdiv_Fin by done. cbn [fmul]. f_equal.
  unfold Qcdiv. rewrite Qcinv_mult_distr.
  rewrite <- !Qcmult_assoc. f_equal.
  rewrite !Qcmult_assoc. f_equal. apply Qcmult_comm.
Qed.

Lemma ps_Pmf_normalize (pmf : Pmf) :
  ps (fst (Pmf_normalize pmf))
  = fmap (fun p => fdiv p (Pmf_sum pmf)) (ps pmf).
Proof.
  unfold Pmf_normalize, Pmf_sum, ps. cbn [fst].
  rewrite <- !list_fmap_compose. apply list_fmap_ext. by intros _ [q p] _.
Qed.

Lemma qs_Pmf_normalize (pmf : Pmf) : qs (fst (Pmf_normalize pmf)) = qs pmf.
Proof.
  unfold Pmf_normalize, qs. cbn [fst].
  rewrite <- !list_fmap_compose. apply list_fmap_ext. by intros _ [q p] _.
Qed.

(** X15.  Normalizing the two distributions before [make_joint] or
    normalizing the joint table after it comes to the same: for finite
    weights and nonzero totals, the table built from the two normalized
    distributions is the table built from the distributions as they
    are, after [normalize], which returns the product of the two
    totals. *)
Theorem make_joint_of_normalized (pmf1 pmf2 : Pmf) :
  finite_pmf pmf1 = true -> finite_pmf pmf2 = true ->
  Pmf_sum pmf1 <> Fin 0 -> Pmf_sum pmf2 <> Fin 0 ->
  exists joint,
    make_joint pmf1 pmf2 = Ok joint /\
    make_joint (fst (Pmf_normalize pmf1)) (fst (Pmf_normalize pmf2))
    = Ok (fst (normalize joint)) /\
    snd (normalize joint) = fmul (Pmf_sum pmf1) (Pmf_sum pmf2).
Proof.
  intros Hf1 Hf2 Hs1 Hs2. eexists. split; [apply make_joint_Ok|].
  rewrite make_joint_Ok, !qs_Pmf_normalize, !ps_Pmf_normalize.
  unfold normalize. cbn [fst snd df_div index columns to_numpy].
  rewrite (outer_total _ _ Hf1 Hf2).
  unfold Pmf_sum in *. unfold finite_pmf in *.
  rewrite !nansum_finite in * by done.
  split; [|done]. unfold df_div. cbn [index columns to_numpy]. do 2 f_equal.
  rewrite <- !list_fmap_compose. apply list_fmap_ext. intros i w2 Hw2. simpl.
  rewrite <- !list_fmap_compose. apply list_fmap_ext. intros j w1 Hw1. simpl.
  apply fdiv_fmul_fdiv; try done; try (by apply is_finite_fsum).
  - eapply all_finite_In; [exact Hf1|]. by eapply list_elem_of_lookup_2.
  - eapply all_finite_In; [exact Hf2|]. by eapply list_elem_of_lookup_2.
Qed.

Lemma make_joint_of_normalized_witness :
  exists joint,
    make_joint (ones_on x135) (ones_on y24) = Ok joint /\
    make_joint (fst (Pmf_normalize (ones_on x135)))
               (fst (Pmf_normalize (ones_on y24)))
    = Ok (fst (normalize joint)) /\
    snd (normalize joint) = fz 6.
Proof.
  destruct (make_joint_of_normalized (ones_on x135) (ones_on y24)
              ltac:(compute_done) ltac:(compute_done)
              ltac:(compute_done) ltac:(compute_done))
    as (joint & Hjoint & Hnorm & Htotal).
  exists joint. split; [exact Hjoint|]. split; [exact Hnorm|].
  rewrite Htotal. compute_done.
Defined.

(** ** The evidence of "A is taller than B" *)

Lemma qsum_mult {A} (f g : A -> Qc) (l : list A) :
  qsum (fmap f l) * qsum (fmap g l)
  = qsum (fmap (fun y => qsum (fmap (fun x => f x * g y) l)) l).
Proof.
  rewrite (Qcmult_comm (qsum (f <$> l))), <- qsum_scale_r.
  f_equal. apply list_fmap_ext. intros _ y _. simpl.
  rewrite qsum_scale_r. apply Qcmult_comm.
Qed.

(** X16.  The number returned by [normalize] in the height example is
    the prior probability that A is taller than B.  For a prior with
    positive finite weights it is a finite nonnegative number, and twice
    it is less than the square of the prior's total: a normalized prior
    gives an evidence below one half, whatever the quantities are. *)
Theorem taller_evidence_below_half (prior : Pmf) :
  Forall (fun y => fpos (snd y)) prior -> prior <> [] ->
  exists joint lik e s,
    make_joint prior prior = Ok joint /\
    likelihood joint = Ok lik /\
    Pmf_sum prior = Fin s /\
    snd (update joint lik) = Fin e /\
    0 <= e /\ e + e < s * s /\
    (s = 1 -> e < frac 1 2).
Proof.
  intros Hpos Hne.
  destruct (taller_update prior) as (joint & lik & Hj & Hl & Hu).
  cbv zeta in Hu. rewrite Forall_forall in Hpos.
  set (w := fun x : Qc * float => to_Qc (snd x)).
  set (t := fun x y : Qc * float => to_Qc (taller_cell x y)).
  assert (Hw : forall x, x ∈ prior -> snd x = Fin (w x) /\ 0 < w x).
  { intros x Hx. specialize (Hpos x Hx). unfold w.
    by destruct (snd x). }
  assert (Ht : forall x y, x ∈ prior -> y ∈ prior ->
                 taller_cell x y = Fin (t x y) /\ 0 <= t x y /\
                 (t x y = 0 \/ t x y = w x * w y /\ fst y < fst x)).
  { intros x y Hx Hy. unfold t.
    destruct (Hw x Hx) as [Hwx Hpx], (Hw y Hy) as [Hwy Hpy].
    destruct (Qclt_le_dec (fst y) (fst x)) as [Hxy|Hxy].
    - unfold taller_cell. rewrite (taller_gt _ _ Hxy), fmul_1_r, Hwx, Hwy.
      cbn [fmul to_Qc]. split; [done|]. split; [|by right].
      apply Qcmult_nonneg_nonneg; by apply Qclt_le_weak.
    - rewrite (taller_cell_zero x y (Hpos x Hx) (Hpos y Hy))
        by (by apply Qcle_not_lt).
      cbn [to_Qc]. split; [done|]. split; [apply Qcle_refl | by left]. }
  (* the evidence and the prior's total as rational sums *)
  assert (He : np_sum (fmap (fun y => fmap (fun x => taller_cell x y) prior) prior)
               = Fin (qsum (fmap (fun y => qsum (fmap (fun x => t x y) prior))
                                 prior))).
  { unfold np_sum. rewrite fsum_concat, <- list_fmap_compose.
    rewrite <- (fsum_fmap_Fin (fun y => qsum (fmap (fun x => t x y) prior))).
    f_equal. apply list_fmap_ext. intros i y Hy. simpl.
    rewrite <- (fsum_fmap_Fin (fun x => t x y)).
    f_equal. apply list_fmap_ext. intros k x Hx. simpl.
    apply Ht; by eapply list_elem_of_lookup_2. }
  assert (Hs : Pmf_sum prior = Fin (qsum (fmap w prior))).
  { unfold Pmf_sum, ps. rewrite <- (nansum_fmap_Fin w).
    f_equal. apply list_fmap_ext. intros i x Hx. simpl.
    apply Hw. by eapply list_elem_of_lookup_2. }
  exists joint, lik. eexists _, _.
  split; [exact Hj|]. split; [exact Hl|]. split; [exact Hs|].
  rewrite Hu. cbn [snd]. split; [exact He|].
  set (e := qsum (fmap (fun y => qsum (fmap (fun x => t x y) prior)) prior)).
  assert (Hnn : 0 <= e).
  { unfold e. rewrite <- (qsum_zero prior). apply qsum_le. intros y Hy.
    rewrite <- (qsum_zero prior). apply qsum_le. intros x Hx.
    by apply Ht. }
  assert (Hlt : e + e < qsum (fmap w prior) * qsum (fmap w prior)).
  { rewrite (qsum_mult w w prior).
    unfold e at 2. rewrite (qsum_swap (fun y x => t x y) prior prior).
    unfold e. rewrite <- (qsum_plus (fun y => qsum (fmap (fun x => t x y) prior))
                                    (fun y => qsum (fmap (fun x => t y x) prior))).
    destruct prior as [|x0 rest] eqn:Hprior; [done|]. rewrite <- Hprior in *.
    assert (Hx0 : x0 ∈ prior) by (rewrite Hprior; by left).
    assert (Hterm : forall x y, x ∈ prior -> y ∈ prior ->
                      t x y + t y x <= w x * w y).
    { intros x y Hx Hy.
      destruct (Ht x y Hx Hy) as (_ & _ & Hxy), (Ht y x Hy Hx) as (_ & _ & Hyx).
      destruct (Hw x Hx) as [_ Hpx], (Hw y Hy) as [_ Hpy].
      assert (0 <= w x * w y)
        by (apply Qcmult_nonneg_nonneg; by apply Qclt_le_weak).
      destruct Hxy as [->|[-> Hxy]], Hyx as [->|[-> Hyx]].
      - by rewrite Qcplus_0_l.
      - rewrite Qcplus_0_l, Qcmult_comm. apply Qcle_refl.
      - rewrite Qcplus_0_r. apply Qcle_refl.
      - destruct (Qclt_not_le _ _ Hxy). by apply Qclt_le_weak. }
    apply (qsum_lt _ _ prior x0); [|done|].
    - intros y Hy. rewrite <- qsum_plus. apply qsum_le. intros x Hx.
      by apply Hterm.
    - rewrite <- qsum_plus. apply (qsum_lt _ _ prior x0); [|done|].
      + intros x Hx. by apply Hterm.
      + destruct (Ht x0 x0 Hx0 Hx0) as (_ & _ & [->|[_ Habs]]).
        * rewrite Qcplus_0_l. apply Qcmult_pos_pos; by apply Hw.
        * by apply Qclt_not_eq in Habs. }
  split; [exact Hnn|]. split; [exact Hlt|].
  intros H1. rewrite H1, Qcmult_1_l in Hlt.
  apply Qcnot_le_lt. intros Hge.
  apply (Qclt_not_le _ _ Hlt).
  replace 1 with (frac 1 2 + frac 1 2) by (by apply Qc_is_canon).
  by apply Qcplus_le_compat.
Qed.

Lemma taller_evidence_below_half_witness :
  exists joint lik e,
    make_joint pmf123 pmf123 = Ok joint /\
    likelihood joint = Ok lik /\
    snd (update joint lik) = Fin e /\
    e < frac 1 2.
Proof.
  assert (Hpos : Forall (fun y : Qc * float => fpos (snd y)) pmf123)
    by (repeat constructor).
  destruct (taller_evidence_below_half pmf123 Hpos ltac:(compute_done))
    as (joint & lik & e & s & Hj & Hl & Hs & He & _ & _ & Hhalf).
  exists joint, lik, e. split; [exact Hj|]. split; [exact Hl|].
  split; [exact He|]. apply Hhalf.
  assert (Hone : Pmf_sum pmf123 = Fin 1) by compute_done.
  rewrite Hone in Hs. by injection Hs.
Defined.

(** ** The posterior means against the prior mean *)

Lemma qsum2_plus {A} (f g : A -> A -> Qc) (l : list A) :
  qsum (fmap (fun y => qsum (fmap (fun x => f x y + g x y) l)) l)
  = qsum (fmap (fun y => qsum (fmap (fun x => f x y) l)) l)
    + qsum (fmap (fun y => qsum (fmap (fun x => g x y) l)) l).
Proof.
  rewrite <- qsum_plus. f_equal. apply list_fmap_ext. intros _ y _. simpl.
  apply qsum_plus.
Qed.

Lemma qsum2_ext {A} (f g : A -> A -> Qc) (l : list A) :
  (forall x y, x ∈ l -> y ∈ l -> f x y = g x y) ->
  qsum (fmap (fun y => qsum (fmap (fun x => f x y) l)) l)
  = qsum (fmap (fun y => qsum (fmap (fun x => g x y) l)) l).
Proof.
  intros Hfg. f_equal. apply list_fmap_ext. intros i y Hy. simpl.
  f_equal. apply list_fmap_ext. intros k x Hx. simpl.
  apply Hfg; by eapply list_elem_of_lookup_2.
Qed.

(** The sum over all pairs of
    [w x * w y * ((q x - q y) * (h x - h y))], in terms of the weighted
    sums of [q], of [h] and of their product. *)
Lemma covariance_pairs {A} (w q h : A -> Qc) (l : list A) :
  qsum (fmap (fun y => qsum (fmap (fun x =>
          w x * w y * ((q x - q y) * (h x - h y))) l)) l)
  + (qsum (fmap (fun x => w x * q x) l) * qsum (fmap (fun x => w x * h x) l)
     + qsum (fmap (fun x => w x * h x) l) * qsum (fmap (fun x => w x * q x) l))
  = qsum (fmap (fun x => w x * q x * h x) l) * qsum (fmap w l)
    + qsum (fmap w l) * qsum (fmap (fun x => w x * q x * h x) l).
Proof.
  rewrite !qsum_mult, <- !qsum2_plus.
  apply qsum2_ext. intros x y _ _. ring.
Qed.

Lemma qsum2_pos {A} (f : A -> A -> Qc) (l : list A) (x0 y0 : A) :
  (forall x y, x ∈ l -> y ∈ l -> 0 <= f x y) ->
  x0 ∈ l -> y0 ∈ l -> 0 < f x0 y0 ->
  0 < qsum (fmap (fun y => qsum (fmap (fun x => f x y) l)) l).
Proof.
  intros Hnn Hx0 Hy0 Hpos.
  rewrite <- (qsum_zero l) at 1. apply (qsum_lt _ _ l y0); [|done|].
  - intros y Hy. rewrite <- (qsum_zero l) at 1. apply qsum_le.
    intros x Hx. by apply Hnn.
  - rewrite <- (qsum_zero l) at 1. apply (qsum_lt _ _ l x0); [|done|done].
    intros x Hx. by apply Hnn.
Qed.

(** Chebyshev's sum inequality for weights that add up to 1: when [q]
    and [h] are ordered the same way, the weighted mean of the product
    is above the product of the weighted means. *)
Lemma weighted_means_same_order {A} (w q h : A -> Qc) (l : list A) (x0 y0 : A) :
  (forall x, x ∈ l -> 0 <= w x) ->
  (forall x y, x ∈ l -> y ∈ l -> 0 <= (q x - q y) * (h x - h y)) ->
  x0 ∈ l -> y0 ∈ l -> 0 < w x0 * w y0 * ((q x0 - q y0) * (h x0 - h y0)) ->
  qsum (fmap w l) = 1 ->
  qsum (fmap (fun x => w x * q x) l) * qsum (fmap (fun x => w x * h x) l)
  < qsum (fmap (fun x => w x * q x * h x) l).
Proof.
  intros Hw Hord Hx0 Hy0 Hstrict Hone.
  pose proof (covariance_pairs w q h l) as Hcov.
  pose proof (qsum2_pos (fun x y => w x * w y * ((q x - q y) * (h x - h y)))
                l x0 y0) as Hpos.
  cbv beta in Hpos.
  specialize (Hpos ltac:(intros x y Hx Hy; apply Qcmult_nonneg_nonneg;
                         [apply Qcmult_nonneg_nonneg; by apply Hw
                         |by apply Hord]) Hx0 Hy0 Hstrict).
  rewrite Hone, Qcmult_1_l, Qcmult_1_r in Hcov.
  set (D := qsum _) in Hcov, Hpos.
  set (B := qsum (fmap (fun x => w x * q x) l)) in *.
  set (C := qsum (fmap (fun x => w x * h x) l)) in *.
  set (P := qsum (fmap (fun x => w x * q x * h x) l)) in *.
  apply Qcnot_le_lt. intros Hle.
  assert (Hsum : P + P <= B * C + C * B).
  { rewrite (Qcmult_comm C B). by apply Qcplus_le_compat. }
  rewrite <- Hcov in Hsum.
  apply (Qclt_not_le _ _ Hpos).
  apply (Qcplus_le_mono_r _ _ (B * C + C * B)).
  by rewrite Qcplus_0_l.
Qed.

Lemma qsum_opp {A} (f : A -> Qc) (l : list A) :
  qsum (fmap (fun x => - f x) l) = - qsum (fmap f l).
Proof.
  induction l as [|x l IH]; [done|].
  rewrite !fmap_cons, !qsum_cons, IH. ring.
Qed.

Lemma Qcmult_diff_same_order (a b c d : Qc) :
  (a <= b -> c <= d) -> (b <= a -> d <= c) -> 0 <= (a - b) * (c - d).
Proof.
  intros Hab Hba. destruct (Qclt_le_dec a b) as [Hlt|Hle].
  - replace ((a - b) * (c - d)) with ((b - a) * (d - c)) by ring.
    apply Qclt_le_weak in Hlt.
    apply Qcmult_nonneg_nonneg; unfold Qcminus; rewrite <- Qcle_minus_iff; auto.
  - apply Qcmult_nonneg_nonneg; unfold Qcminus; rewrite <- Qcle_minus_iff; auto.
Qed.

(** With weights that add up to 1, [q] and [h] ordered in opposite
    ways: the weighted mean of the product is below the product of the
    weighted means. *)
Lemma weighted_means_opposite_order {A} (w q h : A -> Qc) (l : list A)
    (x0 y0 : A) :
  (forall x, x ∈ l -> 0 <= w x) ->
  (forall x y, x ∈ l -> y ∈ l -> 0 <= (q x - q y) * (h y - h x)) ->
  x0 ∈ l -> y0 ∈ l -> 0 < w x0 * w y0 * ((q x0 - q y0) * (h y0 - h x0)) ->
  qsum (fmap w l) = 1 ->
  qsum (fmap (fun x => w x * q x * h x) l)
  < qsum (fmap (fun x => w x * q x) l) * qsum (fmap (fun x => w x * h x) l).
Proof.
  intros Hw Hord Hx0 Hy0 Hstrict Hone.
  pose proof (weighted_means_same_order w q (fun x => - h x) l x0 y0 Hw) as H.
  cbv beta in H.
  assert (Hdiff : forall x y, - h x - - h y = h y - h x) by (intros; ring).
  specialize (H ltac:(intros x y Hx Hy; rewrite Hdiff; by apply Hord) Hx0 Hy0
                ltac:(by rewrite Hdiff) Hone).
  rewrite (list_fmap_ext (fun x => w x * - h x) (fun x => - (w x * h x)) l)
    in H by (intros; ring).
  rewrite (list_fmap_ext (fun x => w x * q x * - h x)
                         (fun x => - (w x * q x * h x)) l)
    in H by (intros; ring).
  rewrite !qsum_opp in H.
  apply Qclt_minus_iff in H. apply Qclt_minus_iff.
  set (B := qsum (fmap (fun x => w x * q x) l)) in *.
  set (C := qsum (fmap (fun x => w x * h x) l)) in *.
  set (P := qsum (fmap (fun x => w x * q x * h x) l)) in *.
  by replace (B * C + - P) with (- P + - (B * - C)) by ring.
Qed.

(** X17.  "A is a little taller than average, and B is a little
    shorter": for a normalized prior with positive finite weights that
    has two quantities, one below the other, the prior mean lies
    strictly between the mean of the posterior marginal of B (the row
    variable) and the mean of the posterior marginal of A (the column
    variable) after the update with the likelihood of "A is taller than
    B". *)
Theorem taller_posterior_means_around_prior (prior : Pmf)
    (x0 y0 : label * float) :
  Forall (fun y => fpos (snd y)) prior ->
  x0 ∈ prior -> y0 ∈ prior -> fst y0 < fst x0 ->
  Pmf_sum prior = Fin 1 ->
  exists joint lik m a b,
    make_joint prior prior = Ok joint /\
    likelihood joint = Ok lik /\
    Pmf_mean prior = Fin m /\
    Pmf_mean (marginal (fst (update joint lik)) axis0) = Fin a /\
    Pmf_mean (marginal (fst (update joint lik)) axis1) = Fin b /\
    b < m /\ m < a.
Proof.
  intros Hpos Hx0 Hy0 Hlt Hone.
  destruct (taller_update prior) as (joint & lik & Hj & Hl & Hu).
  pose proof (taller_evidence_pos prior Hpos x0 y0 Hx0 Hy0 Hlt) as Hev.
  cbv zeta in Hu. rewrite Forall_forall in Hpos.
  set (w := fun x : Qc * float => to_Qc (snd x)).
  set (th := fun x y : Qc * float => to_Qc (taller (fst x) (fst y))).
  set (t := fun x y => w x * w y * th x y).
  set (F := fun x => qsum (fmap (fun y => w y * th x y) prior)).
  set (G := fun y => qsum (fmap (fun x => w x * th x y) prior)).
  assert (Hw : forall x, x ∈ prior -> snd x = Fin (w x) /\ 0 < w x).
  { intros x Hx. specialize (Hpos x Hx). unfold w. by destruct (snd x). }
  assert (Hw0 : forall x, x ∈ prior -> 0 <= w x).
  { intros x Hx. by apply Qclt_le_weak, Hw. }
  assert (Hth1 : forall x y, fst y < fst x -> th x y = 1).
  { intros x y H. unfold th. by rewrite taller_gt. }
  assert (Hth0 : forall x y, fst x <= fst y -> th x y = 0).
  { intros x y H. unfold th. rewrite taller_not_gt; [done|].
    by apply Qcle_not_lt. }
  assert (Hmono : forall x x' y, fst x <= fst x' -> th x y <= th x' y).
  { intros x x' y Hxx. destruct (Qclt_le_dec (fst y) (fst x)) as [H|H].
    - rewrite (Hth1 x y H), (Hth1 x' y); [apply Qcle_refl|].
      by eapply Qclt_le_trans.
    - rewrite (Hth0 x y H). destruct (Qclt_le_dec (fst y) (fst x')) as [H'|H'].
      + by rewrite (Hth1 x' y H').
      + rewrite (Hth0 x' y H'). apply Qcle_refl. }
  assert (Hanti : forall x y y', fst y <= fst y' -> th x y' <= th x y).
  { intros x y y' Hyy. destruct (Qclt_le_dec (fst y') (fst x)) as [H|H].
    - rewrite (Hth1 x y' H), (Hth1 x y); [apply Qcle_refl|].
      by eapply Qcle_lt_trans.
    - rewrite (Hth0 x y' H). destruct (Qclt_le_dec (fst y) (fst x)) as [H'|H'].
      + by rewrite (Hth1 x y H').
      + rewrite (Hth0 x y H'). apply Qcle_refl. }
  (* cells, rows and columns of the unnormalized posterior *)
  assert (Ht : forall x y, x ∈ prior -> y ∈ prior ->
                 taller_cell x y = Fin (t x y)).
  { intros x y Hx Hy. unfold taller_cell, t, th.
    destruct (Hw x Hx) as [Hwx _], (Hw y Hy) as [Hwy _]. rewrite Hwx, Hwy.
    unfold taller. by destruct (Qc_gtb _ _). }
  assert (HrowF : forall x, qsum (fmap (fun y => t x y) prior) = w x * F x).
  { intros x. unfold t, F. rewrite Qcmult_comm, <- qsum_scale_r.
    f_equal. apply list_fmap_ext. intros; simpl; ring. }
  assert (HcolG : forall y, qsum (fmap (fun x => t x y) prior) = w y * G y).
  { intros y. unfold t, G. rewrite Qcmult_comm, <- qsum_scale_r.
    f_equal. apply list_fmap_ext. intros; simpl; ring. }
  set (e := qsum (fmap (fun x => w x * F x) prior)).
  assert (HeG : e = qsum (fmap (fun y => w y * G y) prior)).
  { unfold e.
    rewrite (list_fmap_ext (fun x => w x * F x)
               (fun x => qsum (fmap (fun y => t x y) prior)) prior)
      by (intros; by rewrite HrowF).
    rewrite (qsum_swap (fun x y => t x y) prior prior).
    f_equal. apply list_fmap_ext. intros; simpl. apply HcolG. }
  assert (He : np_sum (fmap (fun y => fmap (fun x => taller_cell x y) prior) prior)
               = Fin e).
  { rewrite HeG. unfold np_sum. rewrite fsum_concat, <- list_fmap_compose.
    rewrite <- (fsum_fmap_Fin (fun y => w y * G y)).
    f_equal. apply list_fmap_ext. intros i y Hy. simpl.
    rewrite <- HcolG, <- (fsum_fmap_Fin (fun x => t x y)).
    f_equal. apply list_fmap_ext. intros k x Hx. simpl.
    apply Ht; by eapply list_elem_of_lookup_2. }
  rewrite He in Hu, Hev. cbn [fpos] in Hev.
  assert (He0 : e <> 0) by (intros H0; rewrite H0 in Hev; by apply Qclt_not_eq in Hev).
  (* the posterior table and the three means *)
  set (g := fun x y => t x y / e).
  assert (Hpost : fst (update joint lik)
                  = {| index := fmap fst prior; columns := fmap fst prior;
                       to_numpy := fmap (fun y => fmap (fun x => Fin (g x y)) prior)
                                        prior |}).
  { rewrite Hu. cbn [fst]. unfold qs. f_equal.
    rewrite <- list_fmap_compose. apply list_fmap_ext. intros i y Hy. simpl.
    rewrite <- list_fmap_compose. apply list_fmap_ext. intros k x Hx. simpl.
    rewrite Ht by (by eapply list_elem_of_lookup_2). by apply fdiv_Fin. }
  destruct (marginals_of_outer prior fst g) as [HmA HmB].
  cbv zeta in HmA, HmB. rewrite <- Hpost in HmA, HmB.
  assert (Hmean : Pmf_mean prior
                  = Fin (qsum (fmap (fun x => w x * fst x) prior))).
  { rewrite <- (Pmf_mean_Fin prior fst w). f_equal.
    rewrite <- (list_fmap_id prior) at 1. apply list_fmap_ext.
    intros i [q p] Hx. simpl.
    apply list_elem_of_lookup_2, Hw in Hx as [Hx _]. simpl in Hx. by rewrite Hx. }
  assert (Hsum : qsum (fmap w prior) = 1).
  { assert (Hs : Pmf_sum prior = Fin (qsum (fmap w prior))).
    { unfold Pmf_sum, ps. rewrite <- (nansum_fmap_Fin w).
      f_equal. apply list_fmap_ext. intros i x Hx. simpl.
      apply Hw. by eapply list_elem_of_lookup_2. }
    rewrite Hone in Hs. by injection Hs. }
  exists joint, lik. eexists _, _, _.
  split; [exact Hj|]. split; [exact Hl|]. split; [exact Hmean|].
  rewrite HmA, HmB.
  rewrite (Pmf_mean_Fin prior fst (fun x => qsum (fmap (fun y => g x y) prior))).
  rewrite (Pmf_mean_Fin prior fst (fun y => qsum (fmap (fun x => g x y) prior))).
  split; [done|]. split; [done|].
  set (m := qsum (fmap (fun x => w x * fst x) prior)).
  set (a := qsum (fmap (fun x => qsum (fmap (fun y => g x y) prior) * fst x) prior)).
  set (b := qsum (fmap (fun y => qsum (fmap (fun x => g x y) prior) * fst y) prior)).
  assert (HA : a * e = qsum (fmap (fun x => w x * fst x * F x) prior)).
  { unfold a.
    rewrite <- (qsum_scale_r
                  (fun x => qsum (fmap (fun y => g x y) prior) * fst x) e prior).
    f_equal. apply list_fmap_ext. intros _ x _. simpl.
    unfold g, Qcdiv. rewrite (qsum_scale_r (fun y => t x y) (/ e)), HrowF.
    by field. }
  assert (HB : b * e = qsum (fmap (fun y => w y * fst y * G y) prior)).
  { unfold b.
    rewrite <- (qsum_scale_r
                  (fun y => qsum (fmap (fun x => g x y) prior) * fst y) e prior).
    f_equal. apply list_fmap_ext. intros _ y _. simpl.
    unfold g, Qcdiv. rewrite (qsum_scale_r (fun x => t x y) (/ e)), HcolG.
    by field. }
  split.
  - (* B: the mass above a quantity decreases with the quantity *)
    pose proof (weighted_means_opposite_order w fst G prior x0 y0 Hw0) as H.
    rewrite <- HeG, <- HB in H. fold m in H.
    apply Qcnot_le_lt. intros Hle.
    apply (Qclt_not_le (b * e) (m * e)).
    + apply H; [|done|done| |done].
      * intros x y Hx Hy. apply Qcmult_diff_same_order; intros Hxy.
        -- apply qsum_le. intros z Hz.
           apply Qcmult_le_mono_nonneg_l; [by apply Hw0 | by apply Hanti].
        -- apply qsum_le. intros z Hz.
           apply Qcmult_le_mono_nonneg_l; [by apply Hw0 | by apply Hanti].
      * apply Qcmult_pos_pos; [apply Qcmult_pos_pos; by apply Hw|].
        apply Qcmult_pos_pos; unfold Qcminus; rewrite <- Qclt_minus_iff; [done|].
        apply (qsum_lt _ _ prior x0); [|done|].
        -- intros z Hz. apply Qcmult_le_mono_nonneg_l; [by apply Hw0|].
           by apply Hanti, Qclt_le_weak.
        -- rewrite (Hth0 x0 x0) by apply Qcle_refl.
           rewrite (Hth1 x0 y0 Hlt), Qcmult_0_r, Qcmult_1_r. by apply Hw.
    + apply Qcmult_le_compat_r; [done | by apply Qclt_le_weak].
  - (* A: the mass below a quantity increases with the quantity *)
    pose proof (weighted_means_same_order w fst F prior x0 y0 Hw0) as H.
    fold e in H. rewrite <- HA in H. fold m in H.
    apply Qcnot_le_lt. intros Hle.
    apply (Qclt_not_le (m * e) (a * e)).
    + apply H; [|done|done| |done].
      * intros x y Hx Hy. apply Qcmult_diff_same_order; intros Hxy.
        -- apply qsum_le. intros z Hz.
           apply Qcmult_le_mono_nonneg_l; [by apply Hw0 | by apply Hmono].
        -- apply qsum_le. intros z Hz.
           apply Qcmult_le_mono_nonneg_l; [by apply Hw0 | by apply Hmono].
      * apply Qcmult_pos_pos; [apply Qcmult_pos_pos; by apply Hw|].
        apply Qcmult_pos_pos; unfold Qcminus; rewrite <- Qclt_minus_iff; [done|].
        apply (qsum_lt _ _ prior y0); [|done|].
        -- intros z Hz. apply Qcmult_le_mono_nonneg_l; [by apply Hw0|].
           by apply Hmono, Qclt_le_weak.
        -- rewrite (Hth0 y0 y0) by apply Qcle_refl.
           rewrite (Hth1 x0 y0 Hlt), Qcmult_0_r, Qcmult_1_r. by apply Hw.
    + apply Qcmult_le_compat_r; [done | by apply Qclt_le_weak].
Qed.

Lemma taller_posterior_means_around_prior_witness :
  exists joint lik m a b,
    make_joint pmf123 pmf123 = Ok joint /\
    likelihood joint = Ok lik /\
    Pmf_mean pmf123 = Fin m /\
    Pmf_mean (marginal (fst (update joint lik)) axis0) = Fin a /\
    Pmf_mean (marginal (fst (update joint lik)) axis1) = Fin b /\
    b < m /\ m < a.
Proof.
  assert (Hpos : Forall (fun y : Qc * float => fpos (snd y)) pmf123)
    by (repeat constructor).
  apply (taller_posterior_means_around_prior pmf123
           (Qc_of_Z 2, Fin (frac 3 10)) (Qc_of_Z 1, Fin (frac 1 5))
           Hpos ltac:(compute_done) ltac:(compute_done) ltac:(compute_done)
           ltac:(compute_done)).
Defined.

(** ** The mean of a conditional distribution *)

Lemma Pmf_normalize_nonneg (col : Pmf) :
  Forall (fun yp => fnonneg (snd yp)) col -> fpos (Pmf_sum col) ->
  Forall (fun yp => fnonneg (snd yp)) (fst (Pmf_normalize col)).
Proof.
  intros Hnn Htotal. unfold Pmf_normalize. cbn [fst]. fold (Pmf_sum col).
  apply Forall_fmap. eapply Forall_impl; [exact Hnn|].
  intros [y p] Hp. simpl in *. by apply fdiv_nonneg.
Qed.

(** A distribution with nonnegative weights that add up to 1 and are
    zero from [key] on has its mean below [key]. *)
Lemma Pmf_mean_below (cond : Pmf) (key : label) :
  Forall (fun yp => fnonneg (snd yp)) cond ->
  Pmf_sum cond = Fin 1 ->
  (forall y p, (y, p) ∈ cond -> p <> Fin 0 -> y < key) ->
  exists m, Pmf_mean cond = Fin m /\ m < key.
Proof.
  intros Hnn Hsum Hzero. rewrite Forall_forall in Hnn.
  set (w := fun yp : Qc * float => to_Qc (snd yp)).
  assert (Hw : forall yp, yp ∈ cond -> snd yp = Fin (w yp) /\ 0 <= w yp).
  { intros yp Hyp. specialize (Hnn yp Hyp). unfold w. by destruct (snd yp). }
  assert (Hcond : cond = fmap (fun yp => (fst yp, Fin (w yp))) cond).
  { rewrite <- (list_fmap_id cond) at 1. apply list_fmap_ext.
    intros i [y p] Hyp. simpl.
    apply list_elem_of_lookup_2, Hw in Hyp as [Hyp _]. simpl in Hyp.
    by rewrite Hyp. }
  assert (Hone : qsum (fmap w cond) = 1).
  { assert (Hs : Pmf_sum cond = Fin (qsum (fmap w cond))).
    { unfold Pmf_sum, ps. rewrite <- (nansum_fmap_Fin w).
      f_equal. apply list_fmap_ext. intros i yp Hyp. simpl.
      apply Hw. by eapply list_elem_of_lookup_2. }
    rewrite Hsum in Hs. by injection Hs. }
  exists (qsum (fmap (fun yp => w yp * fst yp) cond)). split.
  { rewrite Hcond at 1. apply (Pmf_mean_Fin cond fst w). }
  assert (Hlt : forall yp, yp ∈ cond -> w yp <> 0 -> fst yp < key).
  { intros yp Hyp H0. destruct (Hw yp Hyp) as [Hp _].
    apply (Hzero (fst yp) (snd yp)); [by destruct yp|].
    rewrite Hp. intros [= ?]. done. }
  assert (Hterm : forall yp, yp ∈ cond -> w yp * fst yp <= w yp * key).
  { intros yp Hyp. destruct (decide (w yp = 0)) as [H0|H0].
    - rewrite H0, !Qcmult_0_l. apply Qcle_refl.
    - apply Qcmult_le_mono_nonneg_l; [by apply Hw|].
      by apply Qclt_le_weak, Hlt. }
  (* some weight is not zero, since the weights add up to 1 *)
  assert (Hex : exists yp, yp ∈ cond /\ w yp <> 0).
  { destruct (Forall_Exists_dec (fun yp => w yp = 0) (fun yp => w yp <> 0)
                (fun yp => decide (w yp = 0)) cond) as [Hall|Hex].
    - exfalso. rewrite Forall_forall in Hall.
      rewrite (list_fmap_ext w (fun _ => 0) cond) in Hone
        by (intros i yp Hyp; apply Hall; by eapply list_elem_of_lookup_2).
      rewrite qsum_zero in Hone. done.
    - apply Exists_exists in Hex as (yp & Hyp & H0). eauto. }
  destruct Hex as (yp0 & Hyp0 & H0).
  rewrite <- (Qcmult_1_l key), <- Hone, <- qsum_scale_r.
  apply (qsum_lt _ _ cond yp0); [done|done|].
  apply Qcmult_lt_mono_pos_l; [|by apply Hlt].
  destruct (Hw yp0 Hyp0) as [_ Hp0].
  apply Qcle_lt_or_eq in Hp0 as [Hp0|Hp0]; [done|]. by destruct H0.
Qed.

(** X18.  Once A's height is known, B is expected to be shorter: for a
    prior with positive finite weights and distinct quantities, after
    the update with "A is taller than B" the conditional distribution
    read off the column of a quantity [key] that has some quantity
    below it exists and has a finite mean, which is below [key]. *)
Theorem taller_conditional_mean (prior : Pmf) (key y0 : label) :
  Forall (fun y => fpos (snd y)) prior -> NoDup (qs prior) ->
  key ∈ qs prior -> y0 ∈ qs prior -> y0 < key ->
  exists joint lik cond m,
    make_joint prior prior = Ok joint /\
    likelihood joint = Ok lik /\
    conditional (fst (update joint lik)) key = Ok cond /\
    Pmf_mean cond = Fin m /\ m < key.
Proof.
  intros Hpos _ Hkey Hy0 Hlt.
  destruct (taller_update prior) as (joint & lik & Hj & Hl & Hu).
  cbv zeta in Hu.
  destruct (taller_conditional prior Hpos key y0 Hkey Hy0 Hlt)
    as (cond & Hcond & _ & Hsum & Hzero).
  assert (Hnn : Forall (fun yp => fnonneg (snd yp)) cond).
  { (* the weights of [cond] are cells of the posterior over a positive total *)
    pose proof Hcond as Hc. unfold conditional in Hc.
    destruct (getitem _ key) as [col|] eqn:Hget; [|done].
    cbn [rbind] in Hc. injection Hc as <-.
    apply getitem_Ok in Hget as (j & _ & Hjkey & ->).
    cbn [index columns] in *.
    apply list_lookup_fmap_Some in Hjkey as (x0 & Hx0key & Hx0).
    apply list_elem_of_fmap in Hy0 as (yy & -> & Hyy).
    assert (Hx0in : x0 ∈ prior) by (by eapply list_elem_of_lookup_2).
    assert (Hev := taller_evidence_pos prior Hpos x0 yy Hx0in Hyy
                     ltac:(by rewrite <- Hx0key)).
    rewrite (taller_posterior_column prior j x0 Hx0).
    rewrite Forall_forall in Hpos.
    set (g := fun y => fdiv (taller_cell x0 y) _).
    assert (Hg : Forall fnonneg (fmap g prior)).
    { apply Forall_fmap, Forall_forall. intros y Hy. simpl.
      apply fdiv_nonneg; [|done]. apply taller_cell_nonneg; by apply Hpos. }
    assert (Hps : ps (zip (qs prior) (fmap g prior)) = fmap g prior).
    { unfold ps, qs. apply snd_zip. by rewrite !length_fmap. }
    apply Pmf_normalize_nonneg.
    - apply Forall_forall. intros [y p] Hyp%elem_of_zip_r. simpl.
      rewrite Forall_forall in Hg. by apply Hg.
    - unfold Pmf_sum. rewrite Hps, nansum_finite.
      + apply fsum_pos; [done|]. apply Exists_exists. exists (g yy). split.
        * apply list_elem_of_fmap. eauto.
        * apply fdiv_pos; [|done]. apply taller_cell_pos; auto.
          by rewrite <- Hx0key.
      + apply all_finite_Forall. eapply Forall_impl; [exact Hg|].
        apply fnonneg_finite. }
  destruct (Pmf_mean_below cond key Hnn Hsum Hzero) as (m & Hm & Hmlt).
  exists joint, lik, cond, m. rewrite Hu. cbn [fst]. done.
Qed.

Lemma taller_conditional_mean_witness :
  exists joint lik cond m,
    make_joint pmf123 pmf123 = Ok joint /\
    likelihood joint = Ok lik /\
    conditional (fst (update joint lik)) (Qc_of_Z 3) = Ok cond /\
    Pmf_mean cond = Fin m /\ m < Qc_of_Z 3.
Proof.
  assert (Hpos : Forall (fun y : Qc * float => fpos (snd y)) pmf123)
    by (repeat constructor).
  apply (taller_conditional_mean pmf123 (Qc_of_Z 3) (Qc_of_Z 1)
           Hpos ltac:(compute_done) ltac:(compute_done) ltac:(compute_done)
           ltac:(compute_done)).
Defined.
